(** * LingConvert: the ffmpeg/ffprobe process-orchestration layer

    Shallow embedding of the Go packages [media/ffmpeg] and
    [media/ffprobe]:
    - [strings.TrimSpace], [strings.IndexByte] and [strconv.Atoi] /
      [strconv.ParseInt(v, 10, 64)] on byte strings;
    - the progress decoder ([applyKV], [parseProgressLine],
      [scanProgress]); a Go map is a reference, so [FFmpegProgress.Extra]
      is a location in an explicit heap of maps;
    - the outcome mapping of [RunWithProgress];
    - [ensureReady] as an interleaving of caller threads over the shared
      tool record;
    - the [FFmpegCommand] builder, whose [args] slice lives in a heap of
      backing arrays (Go's [append] writes in place when capacity allows). *)

From Stdlib Require Import String Ascii ZArith List Lia Floats.
From stdpp Require Import base gmap strings list fin_maps.
Import ListNotations.

Open Scope Z_scope.

(** ** Byte strings and the Go [strings] helpers *)

Module GoStrings.

Definition code (c : ascii) : nat := nat_of_ascii c.

(** ASCII white space as in Go's [asciiSpace] table. *)
Definition is_ascii_space (c : ascii) : bool :=
  match code c with
  | 9 | 10 | 11 | 12 | 13 | 32 => true
  | _ => false
  end%nat.

(** Two-byte UTF-8 encodings of [unicode.IsSpace] runes: U+0085, U+00A0. *)
Definition two_space (c d : ascii) : bool :=
  (Nat.eqb (code c) 194 && (Nat.eqb (code d) 133 || Nat.eqb (code d) 160))%bool.

(** Three-byte UTF-8 encodings of [unicode.IsSpace] runes: U+1680,
    U+2000..U+200A, U+2028, U+2029, U+202F, U+205F, U+3000. *)
Definition three_space (c d e : ascii) : bool :=
  let c := code c in let d := code d in let e := code e in
  ((Nat.eqb c 225 && Nat.eqb d 154 && Nat.eqb e 128)
   || (Nat.eqb c 226 && Nat.eqb d 128
       && ((Nat.leb 128 e && Nat.leb e 138) || Nat.eqb e 168
           || Nat.eqb e 169 || Nat.eqb e 175))
   || (Nat.eqb c 226 && Nat.eqb d 129 && Nat.eqb e 159)
   || (Nat.eqb c 227 && Nat.eqb d 128 && Nat.eqb e 128))%bool.

(** Drop the leading white-space runes (the left half of
    [strings.TrimSpace] / [TrimFunc(s, unicode.IsSpace)]). *)
Fixpoint trim_left (l : list ascii) : list ascii :=
  match l with
  | [] => []
  | c :: r =>
      if is_ascii_space c then trim_left r else
      match r with
      | d :: r2 =>
          if two_space c d then trim_left r2 else
          match r2 with
          | e :: r3 => if three_space c d e then trim_left r3 else l
          | [] => l
          end
      | [] => l
      end
  end.

(** The same on a reversed byte list: a trailing rune decoded with
    [utf8.DecodeLastRuneInString] is matched backwards. *)
Fixpoint trim_left_rev (l : list ascii) : list ascii :=
  match l with
  | [] => []
  | c :: r =>
      if is_ascii_space c then trim_left_rev r else
      match r with
      | d :: r2 =>
          if two_space d c then trim_left_rev r2 else
          match r2 with
          | e :: r3 => if three_space e d c then trim_left_rev r3 else l
          | [] => l
          end
      | [] => l
      end
  end.

Definition trim_right (l : list ascii) : list ascii := rev (trim_left_rev (rev l)).

(** [strings.TrimSpace] *)
Definition TrimSpace (s : string) : string :=
  string_of_list_ascii (trim_right (trim_left (list_ascii_of_string s))).

(** [strings.IndexByte]: [None] stands for Go's [-1]. *)
Fixpoint IndexByte (s : string) (c : ascii) : option nat :=
  match s with
  | EmptyString => None
  | String d r =>
      if Ascii.eqb c d then Some 0%nat else option_map S (IndexByte r c)
  end.

(** Slicing [s[i:]]. *)
Definition slice_from (s : string) (i : nat) : string :=
  substring i (String.length s - i) s.

(** Slicing [s[:i]]. *)
Definition slice_to (s : string) (i : nat) : string := substring 0 i s.

End GoStrings.

(** ** [strconv] integer parsing in base 10 *)

Module StrConv.

Definition digit (c : ascii) : option Z :=
  let n := nat_of_ascii c in
  if (Nat.leb 48 n && Nat.leb n 57)%bool then Some (Z.of_nat n - 48) else None.

(** Unsigned decimal digits, at least one; [acc] is the value so far. *)
Fixpoint digits_acc (acc : Z) (s : string) : option Z :=
  match s with
  | EmptyString => Some acc
  | String c r =>
      match digit c with
      | Some d => digits_acc (acc * 10 + d) r
      | None => None
      end
  end.

Definition digits (s : string) : option Z :=
  match s with
  | EmptyString => None
  | _ => digits_acc 0 s
  end.

Definition int64_min : Z := - 2 ^ 63.
Definition int64_max : Z := 2 ^ 63 - 1.

(** [strconv.ParseInt(s, 10, 64)]: an optional sign, then decimal digits
    (no underscores and no base prefix for an explicit base 10); a value
    outside the int64 range is an error ([ErrRange]). [strconv.Atoi] is the
    same function on a 64-bit platform. [None] is a non-nil error. *)
Definition ParseInt10 (s : string) : option Z :=
  let r :=
    match s with
    | String "-" t => option_map Z.opp (digits t)
    | String "+" t => digits t
    | _ => digits s
    end in
  match r with
  | Some n => if (int64_min <=? n) && (n <=? int64_max) then Some n else None
  | None => None
  end.

Definition Atoi (s : string) : option Z := ParseInt10 s.

End StrConv.

Import GoStrings StrConv.

(** ** The progress decoder ([FFmpegProgress], src/unnamed/part_000) *)

Module Progress.

(** A location of a Go map object. *)
Abbreviation loc := positive.

(** The Go heap of [map[string]string] objects. *)
Abbreviation mheap := (gmap loc (gmap string string)).

(** [type FFmpegProgress struct]; [Extra] is the map reference, [None]
    for the nil map. *)
Record FFmpegProgress := mkProgress {
  Frame : Z;
  FPS : float;
  Bitrate : string;
  Speed : string;
  OutTimeMs : Z;
  Done : bool;
  Extra : option loc
}.

(** The zero value [var p FFmpegProgress]. *)
Definition zero : FFmpegProgress :=
  mkProgress 0 0%float EmptyString EmptyString 0 false None.

Definition set_Frame (p : FFmpegProgress) n :=
  mkProgress n (FPS p) (Bitrate p) (Speed p) (OutTimeMs p) (Done p) (Extra p).
Definition set_FPS (p : FFmpegProgress) f :=
  mkProgress (Frame p) f (Bitrate p) (Speed p) (OutTimeMs p) (Done p) (Extra p).
Definition set_Bitrate (p : FFmpegProgress) s :=
  mkProgress (Frame p) (FPS p) s (Speed p) (OutTimeMs p) (Done p) (Extra p).
Definition set_Speed (p : FFmpegProgress) s :=
  mkProgress (Frame p) (FPS p) (Bitrate p) s (OutTimeMs p) (Done p) (Extra p).
Definition set_OutTimeMs (p : FFmpegProgress) n :=
  mkProgress (Frame p) (FPS p) (Bitrate p) (Speed p) n (Done p) (Extra p).
Definition set_Done (p : FFmpegProgress) b :=
  mkProgress (Frame p) (FPS p) (Bitrate p) (Speed p) (OutTimeMs p) b (Extra p).
Definition set_Extra (p : FFmpegProgress) e :=
  mkProgress (Frame p) (FPS p) (Bitrate p) (Speed p) (OutTimeMs p) (Done p) e.

(** [map[string]string{}]: a fresh, empty map object. *)
Definition alloc_map (h : mheap) : loc * mheap :=
  let l := fresh (dom h) in (l, <[l := ∅]> h).

(** [m[k] = v] through the reference [l]. *)
Definition map_store (h : mheap) (l : loc) (k v : string) : mheap :=
  <[l := <[k := v]> (default ∅ (h !! l))]> h.

Section Decoder.

(** [strconv.ParseFloat(v, 64)], a standard-library function left
    abstract: every statement below holds for any such parser. *)
Variable ParseFloat : string -> option float.

(** [func (p *FFmpegProgress) applyKV(k, v string)] *)
Definition applyKV (h : mheap) (p : FFmpegProgress) (k v : string)
    : mheap * FFmpegProgress :=
  if String.eqb k "frame" then
    match Atoi v with Some n => (h, set_Frame p n) | None => (h, p) end
  else if String.eqb k "fps" then
    match ParseFloat v with Some f => (h, set_FPS p f) | None => (h, p) end
  else if String.eqb k "bitrate" then (h, set_Bitrate p v)
  else if String.eqb k "speed" then (h, set_Speed p v)
  else if String.eqb k "out_time_ms" then
    match ParseInt10 v with Some n => (h, set_OutTimeMs p n) | None => (h, p) end
  else if String.eqb k "progress" then (h, set_Done p (String.eqb v "end"))
  else
    let '(l, h1, p1) :=
      match Extra p with
      | None => let '(l, h1) := alloc_map h in (l, h1, set_Extra p (Some l))
      | Some l => (l, h, p)
      end in
    (map_store h1 l k v, p1).

(** [func parseProgressLine(line string, p *FFmpegProgress)] *)
Definition parseProgressLine (h : mheap) (line : string) (p : FFmpegProgress)
    : mheap * FFmpegProgress :=
  let line := TrimSpace line in
  if String.eqb line "" then (h, p) else
  match IndexByte line "=" with
  | None | Some 0%nat => (h, p)
  | Some i => applyKV h p (slice_to line i) (slice_from line (S i))
  end.

(** The decoder as a fold: every line parsed into one accumulator. *)
Fixpoint decodeLines (h : mheap) (p : FFmpegProgress) (lines : list string)
    : mheap * FFmpegProgress :=
  match lines with
  | [] => (h, p)
  | l :: ls => let '(h1, p1) := parseProgressLine h l p in decodeLines h1 p1 ls
  end.

(** A progress sink [func(p FFmpegProgress) error]. It receives a copy of
    the struct, which shares the [Extra] map, so it may update the heap;
    [Some msg] is a non-nil error. *)
Definition sink := mheap -> FFmpegProgress -> mheap * option string.

(** The [for sc.Scan()] loop of [scanProgress] over the lines the
    [bufio.Scanner] yields; [p] is the local accumulator and [last] the
    caller's variable. The boolean records whether [cancel()] was called. *)
Fixpoint scan_loop (h : mheap) (p last : FFmpegProgress) (lines : list string)
    (cb : option sink) : mheap * FFmpegProgress * bool :=
  match lines with
  | [] => (h, last, false)
  | line :: ls =>
      let '(h1, p1) := parseProgressLine h line p in
      let last := p1 in
      match cb with
      | Some f =>
          let '(h2, r) := f h1 p1 in
          match r with
          | Some _ => (h2, last, true)
          | None => if Done p1 then (h2, last, false) else scan_loop h2 p1 last ls cb
          end
      | None => if Done p1 then (h1, last, false) else scan_loop h1 p1 last ls cb
      end
  end.

(** [func scanProgress(r, last, cb, cancel)]: [var p FFmpegProgress] is
    fresh. *)
Definition scanProgress (h : mheap) (last : FFmpegProgress) (lines : list string)
    (cb : option sink) : mheap * FFmpegProgress * bool :=
  scan_loop h zero last lines cb.

End Decoder.

End Progress.

(** ** Readiness check ([ensureReady] of [FFmpegTool], src/unnamed/part_000,
    and of ffprobe's [Tool], src/media/ffprobe/media.go)

    Both methods have the same shape: read [checked] under the mutex,
    release it, run [exec.LookPath] and the [-version] probe without the
    lock, then store the outcome under the mutex. Each caller is a thread
    with a program counter; a schedule interleaves the callers' steps. *)

Module Ready.

(** The cached errors; [tool] is "ffmpeg" or "ffprobe". *)
Inductive check_err :=
  | NotFound (tool path lookErr : string)       (* "%s not found (...=%q): %w" *)
  | CheckTimedOut (tool resolved : string)       (* "%s check timed out (path=%q)" *)
  | CannotRun (tool resolved runErr stderr : string).
                                 (* "%s exists but cannot run (path=%q): %w; stderr=%s" *)

(** The tool record: [FFmpegPath]/[FFProbePath] and the mutex-guarded
    fields. [lookups] and [probes] are ghost counters of the
    [exec.LookPath] calls and of the [cmd.Run()] calls of
    [<resolved> -version] (each one starts the binary unless [Start]
    itself fails, e.g. on a [ctx] that is already done). *)
Record tool := mkTool {
  name : string;
  Path : string;
  checked : bool;
  resolvedPath : string;
  version : string;
  checkErr : option check_err;
  lookups : nat;
  probes : nat
}.

(** A fresh tool value ([NewDefaultFFmpeg], [NewDefaultTool]). *)
Definition new_tool (nm path : string) : tool :=
  mkTool nm path false "" "" None 0 0.

(** What [cmd.Run()] of [<resolved> -version] under the 5 s deadline gives. *)
Inductive probe_result :=
  | ProbeOk (stdout : string)
  | ProbeFailed (runErr stderr : string)  (* error, deadline not exceeded *)
  | ProbeTimedOut.                        (* error and [cctx.Err()] is DeadlineExceeded *)

(** The world seen by one caller: the [exec.LookPath] result ([inl] is the
    error text) and the probe result. They depend on the caller (its [ctx]
    bounds the probe) and on the time of the call. *)
Record caller_env := mkCallerEnv {
  lookPath : string -> string + string;
  probe : string -> probe_result
}.

Inductive pc :=
  | PStart                              (* before [t.mu.Lock()] *)
  | PUnlocked                           (* saw [checked = false], lock released *)
  | PNotFound                           (* stored the not-found error, before [return t.checkErr] *)
  | PProbed (resolved : string) (r : probe_result)  (* probe ran, before the final store *)
  | PDone (ret : option check_err).     (* returned *)

Section Steps.

(** [parseFFmpegVersion]/[parseFFProbeVersion]: the banner parser; no
    statement depends on it, so it is left abstract. *)
Variable parseVersion : string -> string.

(** One atomic step of a caller, on the shared tool record. *)
Definition step_thread (e : caller_env) (pcv : pc) (t : tool) : tool * pc :=
  match pcv with
  | PStart =>
      if checked t then (t, PDone (checkErr t)) else (t, PUnlocked)
  | PUnlocked =>
      let path := if String.eqb (Path t) "" then name t else Path t in
      let t := mkTool (name t) (Path t) (checked t) (resolvedPath t) (version t)
                 (checkErr t) (S (lookups t)) (probes t) in
      match lookPath e path with
      | inl lerr =>
          (mkTool (name t) (Path t) true (resolvedPath t) (version t)
             (Some (NotFound (name t) path lerr)) (lookups t) (probes t), PNotFound)
      | inr resolved =>
          (mkTool (name t) (Path t) (checked t) (resolvedPath t) (version t)
             (checkErr t) (lookups t) (S (probes t)),
           PProbed resolved (probe e resolved))
      end
  | PNotFound => (t, PDone (checkErr t))
  | PProbed resolved r =>
      match r with
      | ProbeTimedOut =>
          let err := Some (CheckTimedOut (name t) resolved) in
          (mkTool (name t) (Path t) true resolved (version t) err (lookups t) (probes t),
           PDone err)
      | ProbeFailed runErr stderr =>
          let err := Some (CannotRun (name t) resolved runErr (TrimSpace stderr)) in
          (mkTool (name t) (Path t) true resolved (version t) err (lookups t) (probes t),
           PDone err)
      | ProbeOk out =>
          let ver := parseVersion out in
          let ver := if String.eqb ver "" then "unknown"%string else ver in
          (mkTool (name t) (Path t) true resolved ver None (lookups t) (probes t),
           PDone None)
      end
  | PDone r => (t, PDone r)
  end.

(** The shared tool and the callers' program counters. *)
Record sys := mkSys { tl : tool; threads : list pc }.

(** Caller [i] takes a step; an index without a caller does nothing. *)
Definition step (env : nat -> caller_env) (s : sys) (i : nat) : sys :=
  match threads s !! i with
  | Some pcv =>
      let '(t', pc') := step_thread (env i) pcv (tl s) in
      mkSys t' (<[i := pc']> (threads s))
  | None => s
  end.

Definition run (env : nat -> caller_env) (sched : list nat) (s : sys) : sys :=
  fold_left (step env) sched s.

End Steps.

(** [Version]: [ensureReady] first; on error [("", err)]. *)
Definition Version_result (r : option check_err) (t : tool) : string * option check_err :=
  match r with
  | Some e => (EmptyString, Some e)
  | None => (version t, None)
  end.

End Ready.

(** ** [RunWithProgress] (src/media/ffmpeg/run.go) *)

Module Run.
Import Progress Ready.

Inductive ctx_err := Canceled | DeadlineExceeded.

(** A non-nil result of [execCmd.Wait()]. *)
Inductive wait_err :=
  | ExitError (detail : string)       (* [*exec.ExitError], e.g. "signal: killed" *)
  | OtherWaitError (detail : string).

(** The errors [RunWithProgress] returns. *)
Inductive run_error :=
  | ReadyError (e : check_err)
  | StdoutPipeError (msg : string)
  | StderrPipeError (msg : string)
  | StartError (msg : string)
  | TimedOut (timeout : Z) (stderr : string)     (* "ffmpeg timed out after %s; stderr=%s" *)
  | Failed (w : wait_err) (stderr : string)      (* "ffmpeg failed: %w; stderr=%s" *)
  | ExecError (w : wait_err) (stderr : string).  (* "ffmpeg exec error: %w; stderr=%s" *)

(** What the outside world does during one call: the readiness result,
    the pipe and start results, the stdout lines the scanner yields (up
    to EOF, or up to the moment [Wait] closes the pipe), what the
    subprocess writes on stderr and how many of those bytes the
    [io.Copy] goroutine had read into [stderrBuf] when [Wait] closed the
    read end of the pipe after the process exited ([execCmd.Wait()] runs
    before [wg.Wait()], so bytes still in the pipe are lost), the state
    of the run-scoped context [cctx] when the sink aborts and at the end
    of a run without an abort (a deadline of [cctx] or of the parent, or
    a parent cancellation), and the result of [Wait]. *)
Record run_env := mkRunEnv {
  env_ready : option check_err;
  env_stdout_pipe : option string;
  env_stderr_pipe : option string;
  env_start : option string;
  env_stdout : list string;
  env_stderr : string;
  env_stderr_read : nat;
  env_ctx_at_abort : option ctx_err;
  env_ctx_end : option ctx_err;
  env_wait : option wait_err
}.

(** [stderrBuf.String()] after [wg.Wait()]: the bytes of the stderr
    stream read before the pipe was closed. *)
Definition stderr_captured (env : run_env) : string :=
  String.substring 0 (env_stderr_read env) (env_stderr env).

(** [cancel()]: a context already done keeps its error. *)
Definition cancel_ctx (c : option ctx_err) : option ctx_err :=
  match c with
  | None => Some Canceled
  | Some e => Some e
  end.

(** [cctx.Err()] after [Wait] and [wg.Wait]. *)
Definition run_ctx_err (aborted : bool) (env : run_env) : option ctx_err :=
  if aborted then cancel_ctx (env_ctx_at_abort env) else env_ctx_end env.

Record run_result := mkRunResult {
  rr_heap : mheap;
  rr_last : FFmpegProgress;
  rr_err : option run_error;
  rr_argv : list string      (* the arguments handed to [exec.CommandContext] *)
}.

Section RunSection.
Variable ParseFloat : string -> option float.

(** [func (t *FFmpegTool) RunWithProgress(ctx, cmd, onProgress)];
    [args] is [cmd.Args()], [timeout] is [t.Timeout]. *)
Definition RunWithProgress (h : mheap) (timeout : Z) (env : run_env)
    (args : list string) (onProgress : option sink) : run_result :=
  match env_ready env with
  | Some e => mkRunResult h zero (Some (ReadyError e)) []
  | None =>
    let argv :=
      match onProgress with
      | Some _ => args ++ ["-progress"; "pipe:1"; "-nostats"]%string
      | None => args
      end in
    match env_stdout_pipe env, env_stderr_pipe env, env_start env with
    | Some m, _, _ => mkRunResult h zero (Some (StdoutPipeError m)) argv
    | None, Some m, _ => mkRunResult h zero (Some (StderrPipeError m)) argv
    | None, None, Some m => mkRunResult h zero (Some (StartError m)) argv
    | None, None, None =>
      let '(h1, last, aborted) :=
        match onProgress with
        | Some f => scanProgress ParseFloat h zero (env_stdout env) (Some f)
        | None => (h, zero, false)          (* io.Copy(io.Discard, stdout) *)
        end in
      let stderrText := TrimSpace (stderr_captured env) in
      match env_wait env with
      | None => mkRunResult h1 last None argv
      | Some w =>
          match run_ctx_err aborted env with
          | Some DeadlineExceeded => mkRunResult h1 last (Some (TimedOut timeout stderrText)) argv
          | _ =>
              match w with
              | ExitError _ => mkRunResult h1 last (Some (Failed w stderrText)) argv
              | OtherWaitError _ => mkRunResult h1 last (Some (ExecError w stderrText)) argv
              end
          end
      end
    end
  end.

End RunSection.


End Run.

(** ** The command builder ([FFmpegCommand], src/unnamed/part_001)

    A Go slice is a header (array pointer, length, capacity) over a
    backing array in the heap; [append] writes into the array when the
    capacity suffices and otherwise copies into a fresh, larger array. *)

Module Command.

Abbreviation aloc := positive.

(** The heap of backing arrays; an array holds [cap] elements. *)
Abbreviation aheap := (gmap aloc (list string)).

(** A slice header; [sarr = None] is the nil slice. *)
Record slice := mkSlice { sarr : option aloc; slen : nat; scap : nat }.

Record FFmpegCommand := mkCommand { args : slice }.

(** The elements [s[0:len(s)]]. *)
Definition view (h : aheap) (s : slice) : list string :=
  match sarr s with
  | None => []
  | Some l => firstn (slen s) (default [] (h !! l))
  end.

Definition alloc_array (h : aheap) (contents : list string) : aloc * aheap :=
  let l := fresh (dom h) in (l, <[l := contents]> h).

(** [make([]string, len, cap)] *)
Definition make (h : aheap) (len cap : nat) : aheap * slice :=
  let '(l, h') := alloc_array h (repeat EmptyString cap) in (h', mkSlice (Some l) len cap).

Section Builder.

(** The runtime's capacity policy for a full slice ([growslice], with the
    allocator's size-class rounding): old capacity and needed length to new
    capacity. Left abstract; [append] never gets less than it needs. *)
Variable growslice : nat -> nat -> nat.

(** [append(s, xs...)] *)
Definition append (h : aheap) (s : slice) (xs : list string) : aheap * slice :=
  let n := (slen s + length xs)%nat in
  if Nat.leb n (scap s) then
    match sarr s with
    | Some l =>
        let old := default [] (h !! l) in
        (<[l := firstn (slen s) old ++ xs ++ skipn n old]> h, mkSlice (Some l) n (scap s))
    | None => (h, s)         (* cap 0, nothing to append *)
    end
  else
    let c := Nat.max n (growslice (scap s) n) in
    let '(l, h') := alloc_array h (view h s ++ xs ++ repeat EmptyString (c - n)) in
    (h', mkSlice (Some l) n c).

(** [NewFFmpegCommand]: [&FFmpegCommand{args: []string{"-y"}}] *)
Definition NewFFmpegCommand (h : aheap) : aheap * FFmpegCommand :=
  let '(l, h') := alloc_array h ["-y"%string] in (h', mkCommand (mkSlice (Some l) 1 1)).

(** [Args]: [out := make([]string, len(c.args)); copy(out, c.args)] *)
Definition Args (h : aheap) (c : FFmpegCommand) : aheap * slice :=
  let v := view h (args c) in
  let '(l, h') := alloc_array h v in (h', mkSlice (Some l) (length v) (length v)).

Definition AppendArgs (h : aheap) (c : FFmpegCommand) (xs : list string)
    : aheap * FFmpegCommand :=
  let '(h', s) := append h (args c) xs in (h', mkCommand s).

(** The [for _, a := range c.args] loop of [Overwrite(false)]; the
    elements are those of [c.args] at loop entry (only [n]'s fresh array
    is written during the loop). *)
Fixpoint drop_y (h : aheap) (n : slice) (xs : list string) : aheap * slice :=
  match xs with
  | [] => (h, n)
  | a :: rest =>
      if String.eqb a "-y" then drop_y h n rest
      else let '(h1, n1) := append h n [a] in drop_y h1 n1 rest
  end.

Definition Overwrite (h : aheap) (c : FFmpegCommand) (on : bool) : aheap * FFmpegCommand :=
  if on then (h, c) else
  let '(h1, n) := make h 0 (slen (args c)) in
  let '(h2, n2) := drop_y h1 n (view h (args c)) in
  AppendArgs h2 (mkCommand n2) ["-n"%string].

End Builder.

(** [itoa] = [strconv.Itoa]: decimal rendering of an int. *)
Fixpoint digits_rev (fuel : nat) (n : Z) : list ascii :=
  match fuel with
  | O => []
  | S f =>
      let d := ascii_of_nat (Z.to_nat (n mod 10) + 48) in
      if (n <? 10)%Z then [d] else d :: digits_rev f (n / 10)
  end.

Definition itoa (n : Z) : string :=
  let ds := string_of_list_ascii (rev (digits_rev 20 (Z.abs n))) in
  if (n <? 0)%Z then String "-" ds else ds.

(** The fluent mutators, as operations on a builder. [StartAt] carries
    its [trimFloat(seconds)] rendering. *)
Inductive op :=
  | OAppendArgs (xs : list string)
  | OHideBanner
  | OLogLevel (level : string)
  | OInput (path : string)
  | OOverwrite (on : bool)
  | OOutput (path : string)
  | OVideoCodec (codec : string)
  | OAudioCodec (codec : string)
  | OCopyVideo
  | OCopyAudio
  | OCRF (v : Z)
  | OPreset (p : string)
  | OTune (t : string)
  | OMovFlagsFastStart
  | OMap (spec : string)
  | OScale (w hgt : Z)
  | OFPS (fps : string)
  | OStartAt (trimmed : string).

Section Ops.
Variable growslice : nat -> nat -> nat.

Definition apply_op (h : aheap) (c : FFmpegCommand) (o : op) : aheap * FFmpegCommand :=
  let app := AppendArgs growslice h c in
  match o with
  | OAppendArgs xs => app xs
  | OHideBanner => app ["-hide_banner"]
  | OLogLevel level => app ["-v"; level]
  | OInput path => app ["-i"; path]
  | OOverwrite on => Overwrite growslice h c on
  | OOutput path => app [path]
  | OVideoCodec codec => app ["-c:v"; codec]
  | OAudioCodec codec => app ["-c:a"; codec]
  | OCopyVideo => app ["-c:v"; "copy"]
  | OCopyAudio => app ["-c:a"; "copy"]
  | OCRF v => app ["-crf"; itoa v]
  | OPreset p => app ["-preset"; p]
  | OTune t => app ["-tune"; t]
  | OMovFlagsFastStart => app ["-movflags"; "+faststart"]
  | OMap spec => app ["-map"; spec]
  | OScale w hgt => app ["-vf"; "scale=" ++ itoa w ++ ":" ++ itoa hgt]
  | OFPS fps => app ["-r"; fps]
  | OStartAt s => app ["-ss"; s]
  end%string.

Fixpoint apply_ops (h : aheap) (c : FFmpegCommand) (os : list op) : aheap * FFmpegCommand :=
  match os with
  | [] => (h, c)
  | o :: rest => let '(h1, c1) := apply_op h c o in apply_ops h1 c1 rest
  end.

End Ops.

(** A builder whose backing array is allocated (every Go value is). *)
Definition wf_slice (h : aheap) (s : slice) : Prop :=
  match sarr s with
  | None => slen s = 0%nat /\ scap s = 0%nat
  | Some l => exists a, h !! l = Some a /\ length a = scap s /\ (slen s <= scap s)%nat
  end.

End Command.

(** ** More of the Go standard library used by the repository:
    [strings.Split] on a one-byte separator, [strings.Fields],
    [strings.Contains], [strings.ReplaceAll] with a one-byte [old], and
    the value [strconv.ParseInt(s, 10, 64)] returns next to its error. *)

Module GoText.

Definition LF : ascii := "010"%char.
Definition CR : ascii := "013"%char.
Definition DQ : ascii := "034"%char.

(** [strings.Split(s, sep)] for a one-byte [sep]: at least one element. *)
Fixpoint Split (s : string) (sep : ascii) : list string :=
  match s with
  | EmptyString => [EmptyString]
  | String c r =>
      if Ascii.eqb c sep then EmptyString :: Split r sep
      else match Split r sep with
           | x :: xs => String c x :: xs
           | [] => [String c EmptyString]
           end
  end.

(** Close the field under construction. *)
Definition flush (cur : list ascii) (rest : list (list ascii)) : list (list ascii) :=
  match cur with
  | [] => rest
  | _ => cur :: rest
  end.

(** [strings.Fields]: the maximal runs of non-space runes; the space
    runes are those [TrimSpace] removes. *)
Fixpoint fields_acc (cur : list ascii) (l : list ascii) : list (list ascii) :=
  match l with
  | [] => flush cur []
  | c :: r =>
      if is_ascii_space c then flush cur (fields_acc [] r) else
      match r with
      | d :: r2 =>
          if two_space c d then flush cur (fields_acc [] r2) else
          match r2 with
          | e :: r3 =>
              if three_space c d e then flush cur (fields_acc [] r3)
              else fields_acc (cur ++ [c]) r
          | [] => fields_acc (cur ++ [c]) r
          end
      | [] => fields_acc (cur ++ [c]) r
      end
  end.

Definition Fields (s : string) : list string :=
  map string_of_list_ascii (fields_acc [] (list_ascii_of_string s)).

(** [strings.Contains(s, sub)] *)
Fixpoint Contains (s sub : string) : bool :=
  (String.prefix sub s ||
   match s with
   | EmptyString => false
   | String _ r => Contains r sub
   end)%bool.

(** [strings.ReplaceAll(s, old, new)] for a one-byte [old], the only form
    the repository uses: every occurrence, left to right, and the
    inserted text is not scanned again. *)
Fixpoint ReplaceAll (s : string) (old : ascii) (new : string) : string :=
  match s with
  | EmptyString => EmptyString
  | String c r =>
      if Ascii.eqb c old then new ++ ReplaceAll r old new
      else String c (ReplaceAll r old new)
  end.

End GoText.

Module StrConvGo.

Inductive num_err := ErrSyntax | ErrRange.

Definition maxUint64 : Z := 2 ^ 64 - 1.

(** [cutoff] of [ParseUint] for base 10: the smallest [n] with
    [n * 10] overflowing. *)
Definition cutoff10 : Z := maxUint64 / 10 + 1.

(** The digit loop of [strconv.ParseUint(s, 10, 64)]. *)
Fixpoint parse_uint_loop (n : Z) (s : string) : Z * option num_err :=
  match s with
  | EmptyString => (n, None)
  | String c r =>
      match digit c with
      | None => (0, Some ErrSyntax)
      | Some d =>
          if cutoff10 <=? n then (maxUint64, Some ErrRange) else
          let n1 := n * 10 + d in
          if maxUint64 <? n1 then (maxUint64, Some ErrRange)
          else parse_uint_loop n1 r
      end
  end.

(** [strconv.ParseUint(s, 10, 64)]: value and error. *)
Definition ParseUint10 (s : string) : Z * option num_err :=
  match s with
  | EmptyString => (0, Some ErrSyntax)
  | _ => parse_uint_loop 0 s
  end.

(** [strconv.ParseInt(s, 10, 64)]: value and error. On [ErrRange] the
    value is the bound of the sign's side; on [ErrSyntax] it is 0. *)
Definition ParseInt64 (s : string) : Z * option num_err :=
  match s with
  | EmptyString => (0, Some ErrSyntax)
  | _ =>
    let '(neg, t) :=
      match s with
      | String "+" t => (false, t)
      | String "-" t => (true, t)
      | _ => (false, s)
      end in
    let '(un, e) := ParseUint10 t in
    match e with
    | Some ErrSyntax => (0, Some ErrSyntax)
    | _ =>
      if negb neg && (2 ^ 63 <=? un) then (2 ^ 63 - 1, Some ErrRange)
      else if neg && (2 ^ 63 <? un) then (- 2 ^ 63, Some ErrRange)
      else ((if neg then - un else un), e)
    end
  end.

End StrConvGo.

Import GoText StrConvGo.

(** ** The version banner parsers ([parseFFmpegVersion],
    src/unnamed/part_000; [parseFFProbeVersion], src/media/ffprobe/media.go)

    [strings.ToLower] is left abstract: the statements hold for any
    case mapping. *)

Module Versions.

Section Versions.
Variable ToLower : string -> string.

(** [for i := 0; i < len(parts)-1; i++ { if ToLower(parts[i]) == "version"
    { return parts[i+1] } }; return ""] *)
Fixpoint version_after (parts : list string) : string :=
  match parts with
  | a :: ((b :: _) as rest) =>
      if String.eqb (ToLower a) "version" then b else version_after rest
  | _ => EmptyString
  end.

(** [lines[0]] of [strings.Split(s, "\n")] (never empty). *)
Definition first_line (s : string) : string :=
  match Split s LF with
  | l :: _ => l
  | [] => EmptyString
  end.

Definition parseFFmpegVersion (s : string) : string :=
  let first := TrimSpace (first_line s) in
  version_after (Fields first).

Definition parseFFProbeVersion (s : string) : string :=
  let origFirst := TrimSpace (first_line s) in
  let first := ToLower origFirst in
  if negb (Contains first "ffprobe version") then EmptyString else
  version_after (Fields origFirst).

End Versions.

(** [minDuration] (both packages) *)
Definition minDuration (a b : Z) : Z := if a <=? b then a else b.

End Versions.

(** ** Command presets (src/media/ffmpeg/preset.go) *)

Module Presets.
Import Command.

Section Presets.
Variable growslice : nat -> nat -> nat.

(** [NewFFmpegCommand().op1().op2()...] *)
Definition build (h : aheap) (os : list op) : aheap * FFmpegCommand :=
  let '(h1, c) := NewFFmpegCommand h in apply_ops growslice h1 c os.

Definition PresetTranscodeMP4H264AAC (h : aheap) (input output : string) (crf : Z)
    (preset : string) : aheap * FFmpegCommand :=
  let crf := if crf <=? 0 then 23 else crf in
  let preset := if String.eqb preset "" then "medium"%string else preset in
  build h [OHideBanner; OLogLevel "error"; OInput input; OVideoCodec "libx264";
           OAudioCodec "aac"; OCRF crf; OPreset preset; OMovFlagsFastStart;
           OOutput output]%string.

Definition PresetRemux (h : aheap) (input output : string) : aheap * FFmpegCommand :=
  build h [OHideBanner; OLogLevel "error"; OInput input; OCopyVideo; OCopyAudio;
           OOutput output]%string.

Definition PresetExtractAAC (h : aheap) (input output bitrate : string)
    : aheap * FFmpegCommand :=
  let bitrate := if String.eqb bitrate "" then "128k"%string else bitrate in
  build h [OHideBanner; OLogLevel "error"; OInput input; OAppendArgs ["-vn"];
           OAudioCodec "aac"; OAppendArgs ["-b:a"; bitrate]; OOutput output]%string.

(** [fmt.Sprintf("%.3f", x)], left abstract. *)
Variable Sprintf3f : float -> string.

Definition PresetSnapshot (h : aheap) (input output : string) (atSeconds : float)
    : aheap * FFmpegCommand :=
  build h [OHideBanner; OLogLevel "error"; OAppendArgs ["-ss"; Sprintf3f atSeconds];
           OInput input; OAppendArgs ["-frames:v"; "1"]; OOutput output]%string.

End Presets.

End Presets.

(** ** [Probe], [ProbeSafe], [FirstVideo], [FirstAudio]
    (src/media/ffprobe/media.go) *)

Module FFProbe.
Import Ready Run.

Record Stream := mkStream {
  Index : Z;
  CodecName : string;
  CodecLongName : string;
  CodecType : string;
  Profile : string;
  CodecTagString : string;
  CodecTimeBase : string;
  Width : Z;
  Height : Z;
  PixFmt : string;
  RFrameRate : string;
  AvgFrameRate : string;
  TimeBase : string;
  BitRate : string;
  SampleRate : string;
  Channels : Z;
  ChannelLayout : string;
  Duration : string;
  Disposition : option positive;   (* map reference *)
  Tags : option positive           (* map reference *)
}.

Module Fmt.
Record Format := mkFormat {
  Filename : string;
  NbStreams : Z;
  NbPrograms : Z;
  FormatName : string;
  FormatLongName : string;
  StartTime : string;
  Duration : string;
  Size : string;
  BitRate : string;
  ProbeScore : Z;
  Tags : option positive
}.
End Fmt.

Record FFProbeJSON := mkFFProbeJSON { Streams : list Stream; Format : Fmt.Format }.

(** [for i := range p.Streams { if p.Streams[i].CodecType == ty { return
    &p.Streams[i] } }; return nil]; [Some i] is the pointer to element [i]. *)
Fixpoint first_index (ty : string) (l : list Stream) : option nat :=
  match l with
  | [] => None
  | s :: r => if String.eqb (CodecType s) ty then Some 0%nat else option_map S (first_index ty r)
  end.

Definition FirstVideo (p : FFProbeJSON) : option nat := first_index "video" (Streams p).
Definition FirstAudio (p : FFProbeJSON) : option nat := first_index "audio" (Streams p).

(** What [cmd.Output()] returns. *)
Inductive output_result :=
  | OutOk (stdout : string)
  | OutExitError (detail stderr : string)   (* [*exec.ExitError] *)
  | OutOtherError (detail : string).

Inductive probe_error :=
  | PReady (e : check_err)
  | PFailed (detail stderr : string)        (* "ffprobe failed: %w; stderr=%s" *)
  | PTimedOut (timeout : Z)                 (* "ffprobe timed out after %s" *)
  | PExecError (detail : string)            (* "ffprobe exec error: %w" *)
  | PParseError (msg : string).             (* "parse ffprobe json: %w" *)

(** The world during one [Probe]: the readiness result, the output of
    the subprocess, and [cctx.Err()] when the output error is examined. *)
Record probe_env := mkProbeEnv {
  pe_ready : option check_err;
  pe_output : output_result;
  pe_ctx : option ctx_err
}.

Definition second : Z := 1000000000.

(** [timeout := t.Timeout; if timeout <= 0 { timeout = 15 * time.Second }] *)
Definition Probe_timeout (t : Z) : Z := if t <=? 0 then 15 * second else t.

Definition Probe_args (input : string) : list string :=
  ["-v"; "error"; "-hide_banner"; "-show_format"; "-show_streams"; "-of"; "json"; input]%string.

Section ProbeSection.
(** [json.Unmarshal] into [FFProbeJSON]; [inl] is the error. *)
Variable Unmarshal : string -> string + FFProbeJSON.

Definition Probe (Timeout : Z) (env : probe_env) : option FFProbeJSON * option probe_error :=
  match pe_ready env with
  | Some e => (None, Some (PReady e))
  | None =>
    match pe_output env with
    | OutExitError d se => (None, Some (PFailed d se))
    | OutOtherError d =>
        match pe_ctx env with
        | Some DeadlineExceeded => (None, Some (PTimedOut (Probe_timeout Timeout)))
        | _ => (None, Some (PExecError d))
        end
    | OutOk out =>
        match Unmarshal out with
        | inl m => (None, Some (PParseError m))
        | inr parsed => (Some parsed, None)
        end
    end
  end.

(** [ProbeSafe]: [Probe], then [Version] (its result pair [(ver, verr)]). *)
Definition ProbeSafe (Timeout : Z) (env : probe_env) (version : string * option check_err)
    : option FFProbeJSON * string * option probe_error :=
  match Probe Timeout env with
  | (_, Some err) =>
      match version with
      | (_, Some _) => (None, EmptyString, Some err)
      | (ver, None) => (None, ver, Some err)
      end
  | (info, None) =>
      match version with
      | (_, Some _) => (info, EmptyString, None)
      | (ver, None) => (info, ver, None)
      end
  end.

End ProbeSection.

End FFProbe.

(** ** The extended probes of src/unnamed/part_004 ([runFFProbeJSON],
    [ProbePackets], [ProbeFrames], [ProbeChapters], [ProbePrograms]) *)

Module FFProbeMedia.
Import Ready FFProbe.

Record Packet := mkPacket {
  PCodecType : string;
  StreamIndex : Z;
  Pts : option Z;
  PtsTime : string;
  Dts : option Z;
  DtsTime : string;
  PDuration : option Z;
  DurationTime : string;
  Size : string;
  Pos : string;
  Flags : string
}.

Record Frame := mkFrame {
  MediaType : string;
  KeyFrame : Z;
  PictType : string;
  FPtsTime : string;
  FDtsTime : string;
  BestEffortTimestampTime : string;
  PktDurationTime : string;
  FWidth : Z;
  FHeight : Z;
  FPixFmt : string;
  FSampleRate : string;
  NbSamples : Z;
  FChannels : Z;
  FTags : option positive;           (* map reference *)
  SideDataList : list positive       (* references of the side-data maps *)
}.

Inductive json_error :=
  | JReady (e : check_err)
  | JFailed (detail stderr : string)     (* "ffprobe failed: %w; stderr=%s" *)
  | JExecError (detail : string)         (* "ffprobe exec error: %w" *)
  | JParse (msg : string).               (* "parse ffprobe json: %w" *)

Section Run.
Context {A : Type}.
Variable Unmarshal : string -> string + A.

(** [runFFProbeJSON(ctx, args, out)] with a non-nil [out]. *)
Definition runFFProbeJSON (ready : option check_err) (out : output_result)
    : option A * option json_error :=
  match ready with
  | Some e => (None, Some (JReady e))
  | None =>
    match out with
    | OutExitError d se => (None, Some (JFailed d se))
    | OutOtherError d => (None, Some (JExecError d))
    | OutOk b =>
        match Unmarshal b with
        | inl m => (None, Some (JParse m))
        | inr v => (Some v, None)
        end
    end
  end.
End Run.

Definition ProbePackets_args (input selectStreams : string) : list string :=
  ["-v"; "error"; "-hide_banner"; "-show_packets"; "-of"; "json"]%string ++
  (if String.eqb selectStreams "" then [] else ["-select_streams"%string; selectStreams]) ++
  [input].

Definition ProbeFrames_args (input selectStreams readIntervals : string) : list string :=
  ["-v"; "error"; "-hide_banner"; "-show_frames"; "-of"; "json"]%string ++
  (if String.eqb selectStreams "" then [] else ["-select_streams"%string; selectStreams]) ++
  (if String.eqb readIntervals "" then [] else ["-read_intervals"%string; readIntervals]) ++
  [input].

Definition ProbeChapters_args (input : string) : list string :=
  ["-v"; "error"; "-hide_banner"; "-show_chapters"; "-of"; "json"; input]%string.

Definition ProbePrograms_args (input : string) : list string :=
  ["-v"; "error"; "-hide_banner"; "-show_programs"; "-of"; "json"; input]%string.

End FFProbeMedia.

(** ** The web demo (src/example/demo/main.go) *)

Module Web.
Import Command Presets FFProbeMedia.

(** [appendErr] *)
Definition appendErr (existing add : string) : string :=
  let add := TrimSpace add in
  if String.eqb add "" then existing else
  if String.eqb existing "" then add else
  existing ++ String LF add.

(** [parseInt(s, def)] *)
Definition parseInt (s : string) (def : Z) : Z :=
  let s := TrimSpace s in
  if String.eqb s "" then def else
  match Atoi s with
  | Some n => n
  | None => def
  end.

(** [chooseNonEmpty] *)
Definition chooseNonEmpty (a b : string) : string :=
  let a := TrimSpace a in
  if negb (String.eqb a "") then a else TrimSpace b.

(** [parseInt64]: the error of [ParseInt] is ignored, its value kept. *)
Definition parseInt64 (s : string) : Z :=
  let s := TrimSpace s in
  if String.eqb s "" then 0 else fst (ParseInt64 s).

(** [sanitizeFilename] *)
Definition sanitizeFilename (name : string) : string :=
  let name := ReplaceAll name DQ "" in
  let name := ReplaceAll name LF "" in
  let name := ReplaceAll name CR "" in
  let name := TrimSpace name in
  if String.eqb name "" then "output.bin"%string else name.

(** [writeSSE(w, event, data)]: the bytes written to [w]. [\n] in a Rocq
    string is the two bytes backslash and [n], Go's ["\\n"]. *)
Definition writeSSE (event data : string) : string :=
  let data := ReplaceAll data CR "" in
  let data := ReplaceAll data LF "\n" in
  ("event: " ++ event ++ String LF "") ++ ("data: " ++ data ++ String LF (String LF ""))%string.

(** The frames part of the index handler:
    [if opt.FramesKeyOnly { frames = filterKeyFrames(frames) };
     if opt.FramesLimit > 0 { frames = limitFrames(frames, opt.FramesLimit) }].
    A [*FramesJSON] is a location in a heap of [Frames] slices ([None] is
    nil); a [*PacketsJSON] likewise. *)
Abbreviation fheap := (gmap positive (list Frame)).
Abbreviation pheap := (gmap positive (list Packet)).

Definition is_key_video (f : Frame) : bool :=
  (String.eqb (MediaType f) "video" && Z.eqb (KeyFrame f) 1)%bool.

(** [filterKeyFrames] *)
Definition filterKeyFrames (h : fheap) (inp : option positive) : fheap * option positive :=
  match inp with
  | None => (h, inp)
  | Some l =>
      let out := fresh (dom h) in
      (<[out := List.filter is_key_video (default [] (h !! l))]> h, Some out)
  end.

(** [limitFrames] *)
Definition limitFrames (h : fheap) (inp : option positive) (limit : Z) : fheap * option positive :=
  match inp with
  | None => (h, inp)
  | Some l =>
      let fs := default [] (h !! l) in
      if (limit <=? 0) || (Z.of_nat (length fs) <=? limit) then (h, inp)
      else let out := fresh (dom h) in
           (<[out := firstn (Z.to_nat limit) fs]> h, Some out)
  end%bool.

(** [limitPackets] *)
Definition limitPackets (h : pheap) (inp : option positive) (limit : Z) : pheap * option positive :=
  match inp with
  | None => (h, inp)
  | Some l =>
      let ps := default [] (h !! l) in
      if (limit <=? 0) || (Z.of_nat (length ps) <=? limit) then (h, inp)
      else let out := fresh (dom h) in
           (<[out := firstn (Z.to_nat limit) ps]> h, Some out)
  end%bool.

Definition advanced_frames (h : fheap) (frames : option positive) (keyOnly : bool)
    (limit : Z) : fheap * option positive :=
  let '(h1, f1) := if keyOnly then filterKeyFrames h frames else (h, frames) in
  if 0 <? limit then limitFrames h1 f1 limit else (h1, f1).

Definition frames_of (h : fheap) (p : option positive) : list Frame :=
  match p with
  | None => []
  | Some l => default [] (h !! l)
  end.

Definition packets_of (h : pheap) (p : option positive) : list Packet :=
  match p with
  | None => []
  | Some l => default [] (h !! l)
  end.

(** The counters of [summarizeFrames] (the message renders them with
    [fmt.Sprintf]); [strings.ToUpper] is left abstract. *)
Record frame_counts := mkFrameCounts { total : nat; key : nat; iCnt : nat; pCnt : nat; bCnt : nat }.

Section Summaries.
Variable ToUpper : string -> string.

Definition count_frame (c : frame_counts) (f : Frame) : frame_counts :=
  if String.eqb (MediaType f) "video" then
    let key := if Z.eqb (KeyFrame f) 1 then S (key c) else key c in
    let u := ToUpper (PictType f) in
    if String.eqb u "I" then mkFrameCounts (total c) key (S (iCnt c)) (pCnt c) (bCnt c)
    else if String.eqb u "P" then mkFrameCounts (total c) key (iCnt c) (S (pCnt c)) (bCnt c)
    else if String.eqb u "B" then mkFrameCounts (total c) key (iCnt c) (pCnt c) (S (bCnt c))
    else mkFrameCounts (total c) key (iCnt c) (pCnt c) (bCnt c)
  else c.

Definition summarizeFrames_counts (h : fheap) (fr : option positive) : option frame_counts :=
  match fr with
  | None => None
  | Some l =>
      let fs := default [] (h !! l) in
      Some (fold_left count_frame fs (mkFrameCounts (length fs) 0 0 0 0))
  end.

End Summaries.

(** The counters of [summarizePackets]: [(total, vCnt, aCnt)]. *)
Definition count_packet (c : nat * nat * nat) (p : Packet) : nat * nat * nat :=
  let '(t, v, a) := c in
  if String.eqb (PCodecType p) "video" then (t, S v, a)
  else if String.eqb (PCodecType p) "audio" then (t, v, S a)
  else (t, v, a).

Definition summarizePackets_counts (h : pheap) (pk : option positive) : option (nat * nat * nat) :=
  match pk with
  | None => None
  | Some l =>
      let ps := default [] (h !! l) in
      Some (fold_left count_packet ps (length ps, 0, 0)%nat)
  end.

(** The command of the [/ffmpeg/start] handler, from the form fields. *)
Section Start.
Variable growslice : nat -> nat -> nat.
Variable Sprintf3f : float -> string.
(** The value [strconv.ParseFloat] returns (its error is ignored). *)
Variable ParseFloatValue : string -> float.

Definition start_command (h : aheap) (actionF crfF presetF abitrateF atF : string)
    (inputPath outputPath : string) : aheap * FFmpegCommand :=
  let action := TrimSpace actionF in
  let crf := parseInt crfF 23 in
  let preset := TrimSpace presetF in
  let preset := if String.eqb preset "" then "medium"%string else preset in
  let abitrate := TrimSpace abitrateF in
  let abitrate := if String.eqb abitrate "" then "128k"%string else abitrate in
  let atSec := ParseFloatValue (TrimSpace atF) in
  let atSec := if PrimFloat.ltb atSec 0%float then 0%float else atSec in
  if String.eqb action "extract_aac" then PresetExtractAAC growslice h inputPath outputPath abitrate
  else if String.eqb action "snapshot" then PresetSnapshot growslice Sprintf3f h inputPath outputPath atSec
  else if String.eqb action "remux" then PresetRemux growslice h inputPath outputPath
  else PresetTranscodeMP4H264AAC growslice h inputPath outputPath crf preset.

End Start.

End Web.

(** ** Job event fan-out ([FFJob.subscribe], [unsubscribe], [broadcast],
    src/example/demo/main.go)

    Each action is one atomic step: [subscribe] and [broadcast] run under
    [j.mu]; [unsubscribe] is two steps, the [delete] under the mutex and
    the [close(ch)] after it; a receive takes the head of a buffer. The
    sets [live] and [closing] are ghost state: the channels whose handler
    is still reading, and those whose [unsubscribe] has deleted but not yet
    closed them; [hist] and [recvd] record per channel what was broadcast
    while it was subscribed and what the handler received. [None] is a
    panic (send on, or close of, a closed channel). *)

Module Events.

Record sseEvent := mkEvent { Event : string; Data : string }.

Abbreviation chan := positive.

(** [make(chan sseEvent, 16)] *)
Definition chan_cap : nat := 16.

Record job_subs := mkSubs {
  subs : option (gset chan);
  bufs : gmap chan (list sseEvent);
  closed : gset chan;
  live : gset chan;
  closing : gset chan;
  hist : gmap chan (list sseEvent);
  recvd : gmap chan (list sseEvent)
}.

(** A new job: [subs] is the nil map. *)
Definition no_subs : job_subs := mkSubs None ∅ ∅ ∅ ∅ ∅ ∅.

Inductive action :=
  | Subscribe
  | Unsubscribe (ch : chan)    (* the [delete] under [j.mu] *)
  | Close (ch : chan)          (* the [close(ch)] that follows *)
  | Broadcast (ev : sseEvent)
  | Recv (ch : chan).

(** [select { case ch <- ev: default: }] on one subscriber. *)
Definition offer (ev : sseEvent) (b : list sseEvent) : list sseEvent :=
  if Nat.ltb (length b) chan_cap then b ++ [ev] else b.

Definition step (s : job_subs) (a : action) : option job_subs :=
  match a with
  | Subscribe =>
      let ch := fresh (dom (bufs s)) in
      Some (mkSubs (Some ({[ch]} ∪ default ∅ (subs s))) (<[ch := []]> (bufs s))
              (closed s) ({[ch]} ∪ live s) (closing s)
              (<[ch := []]> (hist s)) (<[ch := []]> (recvd s)))
  | Unsubscribe ch =>
      if decide (ch ∈ live s) then
        Some (mkSubs (option_map (fun m => m ∖ {[ch]}) (subs s)) (bufs s) (closed s)
                (live s ∖ {[ch]}) ({[ch]} ∪ closing s) (hist s) (recvd s))
      else Some s
  | Close ch =>
      if decide (ch ∈ closing s) then
        if decide (ch ∈ closed s) then None
        else Some (mkSubs (subs s) (bufs s) ({[ch]} ∪ closed s) (live s)
                     (closing s ∖ {[ch]}) (hist s) (recvd s))
      else Some s
  | Broadcast ev =>
      match subs s with
      | None => Some s
      | Some m =>
          if decide (m ∩ closed s = ∅) then
            Some (mkSubs (subs s)
                    (map_imap (fun ch b => Some (if decide (ch ∈ m) then offer ev b else b)) (bufs s))
                    (closed s) (live s) (closing s)
                    (map_imap (fun ch l => Some (if decide (ch ∈ m) then l ++ [ev] else l)) (hist s))
                    (recvd s))
          else None
      end
  | Recv ch =>
      if decide (ch ∈ live s) then
        match bufs s !! ch with
        | Some (e :: rest) =>
            Some (mkSubs (subs s) (<[ch := rest]> (bufs s)) (closed s) (live s) (closing s)
                    (hist s) (<[ch := default [] (recvd s !! ch) ++ [e]]> (recvd s)))
        | _ => Some s
        end
      else Some s
  end.

Fixpoint run_actions (s : job_subs) (acts : list action) : option job_subs :=
  match acts with
  | [] => Some s
  | a :: rest =>
      match step s a with
      | Some s' => run_actions s' rest
      | None => None
      end
  end.

End Events.

(** * Proofs *)

Module StringFacts.

Example TrimSpace_ex1 : TrimSpace "  frame=12 " = "frame=12"%string.
Proof. reflexivity. Qed.

Example TrimSpace_ex2 :
  TrimSpace (String (ascii_of_nat 194) (String (ascii_of_nat 160) "x")) = "x"%string.
Proof. reflexivity. Qed.

Example Atoi_ex1 : Atoi "120" = Some 120 /\ Atoi "abc" = None /\ Atoi "-7" = Some (-7)
  /\ Atoi "" = None /\ Atoi "+" = None /\ Atoi "9223372036854775808" = None.
Proof. vm_compute. repeat split. Qed.

End StringFacts.

Module DecoderFacts.
Import Progress.

Section Facts.
Variable ParseFloat : string -> option float.

Example parse_line_ex :
  parseProgressLine ParseFloat ∅ " out_time_ms=1500000 " zero
  = (∅, set_OutTimeMs zero 1500000).
Proof. reflexivity. Qed.

Example parse_line_ignored :
  parseProgressLine ParseFloat ∅ "=5" zero = (∅, zero) /\
  parseProgressLine ParseFloat ∅ "garbage" zero = (∅, zero) /\
  parseProgressLine ParseFloat ∅ "   " zero = (∅, zero).
Proof. repeat split. Qed.

(** Two decoder states that differ only in where their [Extra] maps live. *)
Definition agree (ha : mheap) (pa : FFmpegProgress) (hb : mheap) (pb : FFmpegProgress) : Prop :=
  set_Extra pa None = set_Extra pb None /\
  match Extra pa, Extra pb with
  | None, None => True
  | Some la, Some lb => exists m, ha !! la = Some m /\ hb !! lb = Some m
  | _, _ => False
  end.

(** The observable content of a decoder state: the scalar fields and the
    contents of its [Extra] map. *)
Definition view (h : mheap) (p : FFmpegProgress) : FFmpegProgress * option (gmap string string) :=
  (set_Extra p None, match Extra p with None => None | Some l => h !! l end).

(** A decoder started on heap [hs] leaves every earlier map untouched and
    owns a map allocated after [hs]. *)
Definition framed (hs h : mheap) (p : FFmpegProgress) : Prop :=
  (forall l m, hs !! l = Some m -> h !! l = Some m) /\
  (forall l, Extra p = Some l -> hs !! l = None).

Lemma agree_view ha pa hb pb : agree ha pa hb pb -> view ha pa = view hb pb.
Proof.
  unfold agree, view. intros [Heq Hx]. rewrite Heq. f_equal.
  destruct (Extra pa), (Extra pb); try contradiction; [|reflexivity].
  destruct Hx as (m & H1 & H2). congruence.
Qed.

Lemma applyKV_agree ha pa hb pb k v :
  agree ha pa hb pb ->
  agree (applyKV ParseFloat ha pa k v).1 (applyKV ParseFloat ha pa k v).2
        (applyKV ParseFloat hb pb k v).1 (applyKV ParseFloat hb pb k v).2.
Proof.
  destruct pa as [fa sa ba spa oa da ea], pb as [fb sb bb spb ob db eb].
  unfold agree, set_Extra; simpl. intros [Heq Hx].
  injection Heq as -> -> -> -> -> ->.
  unfold applyKV.
  destruct (String.eqb k "frame");
    [destruct (Atoi v); simpl; split; [reflexivity | exact Hx |reflexivity| exact Hx]|].
  destruct (String.eqb k "fps");
    [destruct (ParseFloat v); simpl; split; [reflexivity | exact Hx |reflexivity| exact Hx]|].
  destruct (String.eqb k "bitrate"); [simpl; split; [reflexivity | exact Hx]|].
  destruct (String.eqb k "speed"); [simpl; split; [reflexivity | exact Hx]|].
  destruct (String.eqb k "out_time_ms");
    [destruct (ParseInt10 v); simpl; split; [reflexivity | exact Hx |reflexivity| exact Hx]|].
  destruct (String.eqb k "progress"); [simpl; split; [reflexivity | exact Hx]|].
  destruct ea as [la|], eb as [lb|]; try contradiction; simpl; split; try reflexivity.
  - destruct Hx as (m & H1 & H2). exists (<[k:=v]> m).
    unfold map_store. rewrite !lookup_insert_eq, H1, H2. split; reflexivity.
  - exists (<[k:=v]> ∅). unfold map_store. rewrite !lookup_insert_eq. simpl.
    split; reflexivity.
Qed.

Lemma applyKV_framed hs h p k v :
  framed hs h p ->
  framed hs (applyKV ParseFloat h p k v).1 (applyKV ParseFloat h p k v).2.
Proof.
  intros [Hkeep Hown]. unfold applyKV.
  destruct (String.eqb k "frame"); [destruct (Atoi v); split; assumption|].
  destruct (String.eqb k "fps"); [destruct (ParseFloat v); split; assumption|].
  destruct (String.eqb k "bitrate"); [split; assumption|].
  destruct (String.eqb k "speed"); [split; assumption|].
  destruct (String.eqb k "out_time_ms"); [destruct (ParseInt10 v); split; assumption|].
  destruct (String.eqb k "progress"); [split; assumption|].
  destruct (Extra p) as [l|] eqn:Hex; simpl.
  - split; [|intros l' Hl'; apply Hown; rewrite <- Hex; exact Hl'].
    intros l' m Hl'. unfold map_store. rewrite lookup_insert_ne; [now apply Hkeep|].
    intros <-. rewrite (Hown l eq_refl) in Hl'. discriminate.
  - assert (Hfr : hs !! fresh (dom h) = None).
    { destruct (hs !! fresh (dom h)) as [m|] eqn:E; [|reflexivity].
      exfalso. apply (is_fresh (dom h)). apply elem_of_dom.
      rewrite (Hkeep _ _ E). eexists; reflexivity. }
    split.
    + intros l' m Hl'. unfold map_store.
      assert (l' <> fresh (dom h)) by congruence.
      rewrite lookup_insert_ne by congruence. rewrite lookup_insert_ne by congruence.
      now apply Hkeep.
    + intros l' Hl'. simpl in Hl'. injection Hl' as <-. exact Hfr.
Qed.

Lemma parseProgressLine_agree ha pa hb pb line :
  agree ha pa hb pb ->
  agree (parseProgressLine ParseFloat ha line pa).1 (parseProgressLine ParseFloat ha line pa).2
        (parseProgressLine ParseFloat hb line pb).1 (parseProgressLine ParseFloat hb line pb).2.
Proof.
  intros H. unfold parseProgressLine.
  destruct (String.eqb (TrimSpace line) ""); [exact H|].
  destruct (IndexByte (TrimSpace line) "=") as [[|i]|]; [exact H| |exact H].
  now apply applyKV_agree.
Qed.

Lemma parseProgressLine_framed hs h p line :
  framed hs h p ->
  framed hs (parseProgressLine ParseFloat h line p).1 (parseProgressLine ParseFloat h line p).2.
Proof.
  intros H. unfold parseProgressLine.
  destruct (String.eqb (TrimSpace line) ""); [exact H|].
  destruct (IndexByte (TrimSpace line) "=") as [[|i]|]; [exact H| |exact H].
  now apply applyKV_framed.
Qed.

Lemma decodeLines_agree lines : forall ha pa hb pb,
  agree ha pa hb pb ->
  agree (decodeLines ParseFloat ha pa lines).1 (decodeLines ParseFloat ha pa lines).2
        (decodeLines ParseFloat hb pb lines).1 (decodeLines ParseFloat hb pb lines).2.
Proof.
  induction lines as [|line rest IH]; intros ha pa hb pb H; simpl; [exact H|].
  pose proof (parseProgressLine_agree ha pa hb pb line H) as H1.
  destruct (parseProgressLine ParseFloat ha line pa) as [ha1 pa1].
  destruct (parseProgressLine ParseFloat hb line pb) as [hb1 pb1].
  now apply IH.
Qed.

Lemma decodeLines_framed hs lines : forall h p,
  framed hs h p ->
  framed hs (decodeLines ParseFloat h p lines).1 (decodeLines ParseFloat h p lines).2.
Proof.
  induction lines as [|line rest IH]; intros h p H; simpl; [exact H|].
  pose proof (parseProgressLine_framed hs h p line H) as H1.
  destruct (parseProgressLine ParseFloat h line p) as [h1 p1].
  now apply IH.
Qed.

Lemma agree_Done ha pa hb pb : agree ha pa hb pb -> Done pa = Done pb.
Proof.
  intros [Heq _]. destruct pa, pb. unfold set_Extra in Heq. simpl in *. congruence.
Qed.

Lemma scan_loop_agree lines : forall ha pa la hb pb lb,
  agree ha pa hb pb -> agree ha la hb lb ->
  agree (scan_loop ParseFloat ha pa la lines None).1.1 (scan_loop ParseFloat ha pa la lines None).1.2
        (scan_loop ParseFloat hb pb lb lines None).1.1 (scan_loop ParseFloat hb pb lb lines None).1.2.
Proof.
  induction lines as [|line rest IH]; intros ha pa la hb pb lb Hp Hl; simpl; [exact Hl|].
  pose proof (parseProgressLine_agree ha pa hb pb line Hp) as H1.
  destruct (parseProgressLine ParseFloat ha line pa) as [ha1 pa1].
  destruct (parseProgressLine ParseFloat hb line pb) as [hb1 pb1].
  simpl in H1. rewrite (agree_Done _ _ _ _ H1).
  destruct (Done pb1); [exact H1|]. now apply IH.
Qed.

Lemma scan_loop_framed hs lines : forall h p last,
  framed hs h p -> framed hs h last ->
  framed hs (scan_loop ParseFloat h p last lines None).1.1
            (scan_loop ParseFloat h p last lines None).1.2.
Proof.
  induction lines as [|line rest IH]; intros h p last Hp Hl; simpl; [exact Hl|].
  pose proof (parseProgressLine_framed hs h p line Hp) as H1.
  destruct (parseProgressLine ParseFloat h line p) as [h1 p1].
  destruct (Done p1); [exact H1|]. now apply IH.
Qed.

(** A state whose map is allocated reads the same in any heap that keeps
    the earlier maps. *)
Lemma view_frame (h1 h2 : mheap) p :
  (forall l m, h1 !! l = Some m -> h2 !! l = Some m) ->
  (forall l, Extra p = Some l -> is_Some (h1 !! l)) ->
  view h2 p = view h1 p.
Proof.
  intros Hkeep Hdef. unfold view. f_equal.
  destruct (Extra p) as [l|]; [|reflexivity].
  destruct (Hdef l eq_refl) as [m Hm]. rewrite Hm. now apply Hkeep.
Qed.

Lemma agree_defined ha pa hb pb l :
  agree ha pa hb pb -> Extra pa = Some l -> is_Some (ha !! l).
Proof.
  intros [_ Hx] He. rewrite He in Hx.
  destruct (Extra pb); [|contradiction]. destruct Hx as (m & Hm & _). now exists m.
Qed.

Lemma framed_start h : framed h h zero.
Proof. split; [tauto | discriminate]. Qed.

Lemma agree_zero ha hb : agree ha zero hb zero.
Proof. split; reflexivity. Qed.

Lemma scan_loop_cut cb post pre : forall h p last,
  scan_loop ParseFloat h p last (pre ++ "progress=end" :: post) cb =
  scan_loop ParseFloat h p last (pre ++ ["progress=end"%string]) cb.
Proof.
  induction pre as [|line rest IH]; intros h p last; simpl.
  - change (parseProgressLine ParseFloat h "progress=end" p) with (h, set_Done p true).
    destruct cb as [f|]; [|reflexivity].
    destruct (f h (set_Done p true)) as [h2 [e|]]; reflexivity.
  - destruct (parseProgressLine ParseFloat h line p) as [h1 p1].
    destruct cb as [f|].
    + destruct (f h1 p1) as [h2 [e|]]; [reflexivity|].
      destruct (Done p1); [reflexivity|]. apply IH.
    + destruct (Done p1); [reflexivity|]. apply IH.
Qed.

(** C5: the line [progress=end] sets [Done] at whatever state the loop
    has reached, the loop returns at that line (whatever the sink says),
    and the lines after it never reach the returned snapshot. *)
Theorem scan_stops_at_progress_end (h : mheap) (p last : FFmpegProgress)
    (pre post : list string) (cb : option sink) :
  parseProgressLine ParseFloat h "progress=end" p = (h, set_Done p true) /\
  Done (set_Done p true) = true /\
  (exists h' aborted,
      scan_loop ParseFloat h p last ("progress=end" :: post) cb = (h', set_Done p true, aborted)) /\
  scanProgress ParseFloat h last (pre ++ "progress=end" :: post) cb =
  scanProgress ParseFloat h last (pre ++ ["progress=end"%string]) cb.
Proof.
  split; [reflexivity|]. split; [reflexivity|]. split.
  - simpl. change (parseProgressLine ParseFloat h "progress=end" p) with (h, set_Done p true).
    destruct cb as [f|].
    + destruct (f h (set_Done p true)) as [h2 [e|]]; eexists; eexists; reflexivity.
    + eexists; eexists; reflexivity.
  - apply scan_loop_cut.
Qed.

(** C6: a recognised numeric key with an unparsable value leaves the whole
    state (and the heap) as it was; [frame=120] then [frame=abc] ends with
    frame 120, in the fold and in the scanning loop. *)
Theorem applyKV_numeric_parse_failure (h : mheap) (p : FFmpegProgress) (v : string) :
  (Atoi v = None -> applyKV ParseFloat h p "frame" v = (h, p)) /\
  (ParseFloat v = None -> applyKV ParseFloat h p "fps" v = (h, p)) /\
  (ParseInt10 v = None -> applyKV ParseFloat h p "out_time_ms" v = (h, p)) /\
  Frame (decodeLines ParseFloat h zero ["frame=120"; "frame=abc"]%string).2 = 120 /\
  Frame (scanProgress ParseFloat h zero ["frame=120"; "frame=abc"]%string None).1.2 = 120.
Proof.
  unfold applyKV; simpl.
  split; [intros E; rewrite E; reflexivity|].
  split; [intros E; rewrite E; reflexivity|].
  split; [intros E; rewrite E; reflexivity|].
  split; reflexivity.
Qed.

(** C7: two fresh decoders fed the same lines, the second one on the heap
    the first one left, end with the same observable snapshot, and the
    second run does not disturb the first one's map. Same for the
    scanning loop without a sink. *)
Theorem decode_deterministic (h0 : mheap) (lines : list string) :
  (let r1 := decodeLines ParseFloat h0 zero lines in
   let r2 := decodeLines ParseFloat r1.1 zero lines in
   view r2.1 r2.2 = view r1.1 r1.2 /\ view r2.1 r1.2 = view r1.1 r1.2) /\
  (let r1 := scanProgress ParseFloat h0 zero lines None in
   let r2 := scanProgress ParseFloat r1.1.1 zero lines None in
   view r2.1.1 r2.1.2 = view r1.1.1 r1.1.2 /\ view r2.1.1 r1.1.2 = view r1.1.1 r1.1.2).
Proof.
  split; cbv zeta.
  - set (r1 := decodeLines ParseFloat h0 zero lines).
    pose proof (decodeLines_agree lines h0 zero r1.1 zero (agree_zero _ _)) as A.
    pose proof (decodeLines_framed r1.1 lines r1.1 zero (framed_start _)) as [Hk _].
    fold r1 in A. split.
    + symmetry. now apply agree_view.
    + apply view_frame; [exact Hk|]. intros l Hl. exact (agree_defined _ _ _ _ l A Hl).
  - set (r1 := scanProgress ParseFloat h0 zero lines None).
    pose proof (scan_loop_agree lines h0 zero zero r1.1.1 zero zero
                  (agree_zero _ _) (agree_zero _ _)) as A.
    pose proof (scan_loop_framed r1.1.1 lines r1.1.1 zero zero
                  (framed_start _) (framed_start _)) as [Hk _].
    unfold scanProgress in *. fold r1 in A. split.
    + symmetry. now apply agree_view.
    + apply view_frame; [exact Hk|]. intros l Hl. exact (agree_defined _ _ _ _ l A Hl).
Qed.

(** C10: [applyKV] overwrites [Done] on every [progress] line, so
    [progress=continue] after [progress=end] clears it in the fold; the
    scanning loop keeps [Done = true] because it returns at the first line
    that set it. *)
Theorem applyKV_progress_not_latched (h : mheap) (p : FFmpegProgress) (v : string) :
  applyKV ParseFloat h p "progress" v = (h, set_Done p (String.eqb v "end")) /\
  Done (decodeLines ParseFloat h zero ["progress=end"; "progress=continue"]%string).2 = false /\
  Done (scanProgress ParseFloat h zero ["progress=end"; "progress=continue"]%string None).1.2 = true /\
  (forall cb,
     Done (scanProgress ParseFloat h zero ("progress=end" :: ["progress=continue"])%string cb).1.2
     = true).
Proof.
  split; [reflexivity|]. split; [reflexivity|]. split; [reflexivity|].
  intros cb. unfold scanProgress. simpl.
  change (parseProgressLine ParseFloat h "progress=end" zero) with (h, set_Done zero true).
  destruct cb as [f|]; [|reflexivity].
  destruct (f h (set_Done zero true)) as [h2 [e|]]; reflexivity.
Qed.

End Facts.

Lemma applyKV_numeric_parse_failure_witness :
  Atoi "abc" = None /\
  applyKV (fun _ => None) ∅ zero "frame" "abc" = (∅, zero) /\
  applyKV (fun _ => None) ∅ zero "fps" "abc" = (∅, zero) /\
  applyKV (fun _ => None) ∅ zero "out_time_ms" "abc" = (∅, zero).
Proof.
  destruct (applyKV_numeric_parse_failure (fun _ => None) ∅ zero "abc")
    as (H1 & H2 & H3 & _).
  split; [reflexivity|].
  split; [apply H1; reflexivity|].
  split; [apply H2; reflexivity|].
  apply H3; reflexivity.
Defined.

End DecoderFacts.

Module RunFacts.
Import Progress Ready Run.














(** A sink that asks to abort on the first snapshot. *)
Definition abort_sink : sink := fun h _ => (h, Some "stop"%string).

(** The subprocess is killed by the cancellation: [Wait] reports an
    [*exec.ExitError]. *)
Definition aborted_env : run_env :=
  mkRunEnv None None None None ["frame=1"; "progress=continue"]%string "" 0 None None
           (Some (ExitError "signal: killed")).

Definition is_timeout (e : option run_error) : bool :=
  match e with Some (TimedOut _ _) => true | _ => false end.

(** C2, counterexample: the sink aborts before [done], the context ends
    [Canceled], and the run reports "ffmpeg failed", not a timeout. *)
Lemma sink_abort_not_timeout :
  let r := RunWithProgress (fun _ => None) ∅ 30 aborted_env ["-i"; "in.mp4"; "out.mp4"]%string
             (Some abort_sink) in
  (scanProgress (fun _ => None) ∅ zero (env_stdout aborted_env) (Some abort_sink)).2 = true /\
  Done (rr_last r) = false /\
  run_ctx_err true aborted_env = Some Canceled /\
  rr_err r = Some (Failed (ExitError "signal: killed") "") /\
  is_timeout (rr_err r) = false.
Proof. repeat split. Qed.

(** C2, amended: after a sink abort the context error is [cancel()] of its
    state at the abort; the outcome is a timeout only if the deadline had
    already expired then, and otherwise it is classified by the [Wait]
    result alone (success on a nil result), whether or not [Done] was
    reached; in every case the run returns the scanner's last snapshot. *)
Theorem sink_abort_outcome ParseFloat (h : mheap) timeout env args (f : sink) :
  env_ready env = None -> env_stdout_pipe env = None ->
  env_stderr_pipe env = None -> env_start env = None ->
  (scanProgress ParseFloat h zero (env_stdout env) (Some f)).2 = true ->
  run_ctx_err true env = cancel_ctx (env_ctx_at_abort env) /\
  rr_last (RunWithProgress ParseFloat h timeout env args (Some f)) =
    (scanProgress ParseFloat h zero (env_stdout env) (Some f)).1.2 /\
  rr_err (RunWithProgress ParseFloat h timeout env args (Some f)) =
    match env_wait env with
    | None => None
    | Some w =>
        match env_ctx_at_abort env with
        | Some DeadlineExceeded => Some (TimedOut timeout (TrimSpace (stderr_captured env)))
        | _ =>
            Some (match w with
                  | ExitError _ => Failed w (TrimSpace (stderr_captured env))
                  | OtherWaitError _ => ExecError w (TrimSpace (stderr_captured env))
                  end)
        end
    end.
Proof.
  intros Hr Ho He Hs Hab. split; [reflexivity|].
  unfold RunWithProgress. rewrite Hr, Ho, He, Hs.
  destruct (scanProgress ParseFloat h zero (env_stdout env) (Some f)) as [[h1 last] b].
  simpl in Hab. subst b. simpl.
  unfold run_ctx_err. simpl.
  destruct (env_wait env) as [w|]; [|split; reflexivity].
  destruct (env_ctx_at_abort env) as [[|]|]; simpl; destruct w; split; reflexivity.
Qed.

(** The sink aborts on the first snapshot; the killed process is reported
    as "ffmpeg failed" with the snapshot of frame 1 as the last one. *)
Lemma sink_abort_outcome_witness :
  rr_err (RunWithProgress (fun _ => None) ∅ 30 aborted_env [] (Some abort_sink))
    = Some (Failed (ExitError "signal: killed") "") /\
  rr_last (RunWithProgress (fun _ => None) ∅ 30 aborted_env [] (Some abort_sink))
    = (scanProgress (fun _ => None) ∅ zero (env_stdout aborted_env) (Some abort_sink)).1.2.
Proof.
  destruct (sink_abort_outcome (fun _ => None) ∅ 30 aborted_env [] abort_sink
              eq_refl eq_refl eq_refl eq_refl eq_refl) as (_ & Hl & He).
  split; [exact He|exact Hl].
Defined.

End RunFacts.

Module ReadyFacts.
Import Ready.

Definition banner_version (_ : string) : string := "6.1".

(** Callers that find the binary and run it successfully. *)
Definition ok_env : nat -> caller_env :=
  fun _ => mkCallerEnv (fun p => inr ("/usr/bin/" ++ p)%string) (fun _ => ProbeOk "ffmpeg version 6.1").

(** Caller 0's [ctx] is cancelled while its probe runs: the started
    process is killed ([runErr] is "signal: killed", [cctx.Err()] is
    [Canceled], not [DeadlineExceeded]); the other callers succeed. *)
Definition mixed_env : nat -> caller_env :=
  fun i => match i with
           | O => mkCallerEnv (fun p => inr ("/usr/bin/" ++ p)%string)
                    (fun _ => ProbeFailed "signal: killed" "")
           | _ => ok_env i
           end.

(** [n] callers of one fresh tool named [nm] ([NewDefaultFFmpeg],
    [NewDefaultTool]). *)
Definition callers_of (nm : string) (n : nat) : sys := mkSys (new_tool nm nm) (repeat PStart n).

Definition callers (n : nat) : sys := callers_of "ffmpeg" n.

(** C3, code bug: for the ffmpeg and the ffprobe tool alike, two
    concurrent first-time callers both read [checked = false] before
    either stores, and both resolve the path and run the binary; with
    different worlds they also return different outcomes, and the last
    store (caller 1's success) is what stays cached. *)
Lemma ensureReady_race_two_checks :
  (let s := run banner_version ok_env [0; 1; 0; 1; 0; 1]%nat (callers 2) in
   lookups (tl s) = 2%nat /\ probes (tl s) = 2%nat) /\
  (let s := run banner_version ok_env [0; 1; 0; 1; 0; 1]%nat (callers_of "ffprobe" 2) in
   lookups (tl s) = 2%nat /\ probes (tl s) = 2%nat) /\
  (let s' := run banner_version mixed_env [0; 1; 0; 1; 0; 1]%nat (callers 2) in
   probes (tl s') = 2%nat /\
   threads s' = [PDone (Some (CannotRun "ffmpeg" "/usr/bin/ffmpeg" "signal: killed" ""));
                 PDone None] /\
   checkErr (tl s') = None).
Proof. vm_compute. repeat split. Qed.

(** C4, code bug: caller 0 completes with a cached error; caller 1,
    which had entered before, then runs the binary again and overwrites
    the cache with success; caller 2, arriving after caller 0 completed,
    returns no error. *)
Lemma ensureReady_cached_error_overwritten :
  let s1 := run banner_version mixed_env [0; 1; 0; 0]%nat (callers 3) in
  let s2 := run banner_version mixed_env [1; 1; 2]%nat s1 in
  threads s1 !! 0%nat = Some (PDone (Some (CannotRun "ffmpeg" "/usr/bin/ffmpeg" "signal: killed" ""))) /\
  checked (tl s1) = true /\ probes (tl s1) = 1%nat /\
  probes (tl s2) = 2%nat /\
  checkErr (tl s2) = None /\
  threads s2 !! 2%nat = Some (PDone None).
Proof. vm_compute. repeat split. Qed.









(** No caller is inside the unlocked check. *)
Definition quiescent (l : list pc) : Prop :=
  forall i pcv, l !! i = Some pcv ->
  match pcv with PUnlocked | PProbed _ _ => False | _ => True end.

Definition settled (t0 : tool) (s0 s : sys) : Prop :=
  tl s = t0 /\ quiescent (threads s) /\ length (threads s) = length (threads s0) /\
  forall i, threads s0 !! i = Some PStart ->
    threads s !! i = Some PStart \/ threads s !! i = Some (PDone (checkErr t0)).

Lemma step_settled pv env t0 s0 s i :
  checked t0 = true -> settled t0 s0 s -> settled t0 s0 (step pv env s i).
Proof.
  intros Hc (Ht & Hq & Hlen & Hst). unfold step.
  destruct (threads s !! i) as [pcv|] eqn:Hi; [|repeat split; auto].
  destruct s as [t ths]; simpl in *. subst t.
  assert (Hlt : (i < length ths)%nat) by (eapply lookup_lt_Some; eauto).
  assert (Hnew : exists pc', step_thread pv (env i) pcv t0 = (t0, pc') /\
            match pc' with PDone _ => True | _ => False end /\
            (pcv = PStart \/ pcv = PNotFound -> pc' = PDone (checkErr t0)) /\
            (forall r, pcv = PDone r -> pc' = PDone r)).
  { pose proof (Hq i pcv Hi) as Hp.
    destruct pcv; simpl in Hp |- *; try contradiction; [rewrite Hc| |];
      (eexists; split; [reflexivity|]; split; [exact I|];
       split; [intros [E|E]; first [reflexivity | discriminate]
              | intros r E; first [discriminate | injection E as ->; reflexivity]]). }
  destruct Hnew as (pc' & Hstep & Hdone & Hfirst & Hkeep).
  rewrite Hstep. unfold settled; simpl. split; [reflexivity|]. split; [|split].
  - intros j pj Hj. destruct (decide (i = j)) as [<-|Hne].
    + rewrite list_lookup_insert_eq in Hj by exact Hlt. injection Hj as <-.
      destruct pc'; tauto.
    + rewrite list_lookup_insert_ne in Hj by exact Hne. exact (Hq j pj Hj).
  - now rewrite length_insert.
  - intros j Hj. destruct (decide (i = j)) as [<-|Hne].
    + rewrite list_lookup_insert_eq by exact Hlt. right.
      destruct (Hst i Hj) as [E|E]; rewrite Hi in E; injection E as ->.
      * f_equal. apply Hfirst. now left.
      * f_equal. now apply Hkeep.
    + rewrite list_lookup_insert_ne by exact Hne. now apply Hst.
Qed.

Lemma run_settled pv env t0 s0 sched : forall s,
  checked t0 = true -> settled t0 s0 s -> settled t0 s0 (run pv env sched s).
Proof.
  induction sched as [|i sched IH]; intros s Hc H; simpl; [exact H|].
  apply IH; [exact Hc|]. now apply step_settled.
Qed.

(** Once an outcome is cached and no earlier caller is still inside the
    unlocked check, the tool record is frozen: every later caller returns
    the cached [checkErr] without resolving the path or running the
    binary, and [Version] and [RunWithProgress] hand that error back
    unchanged. (A caller still inside the check can overwrite the
    cache.) *)
Theorem ensureReady_cached_replay pv env sched (s0 : sys) :
  checked (tl s0) = true -> quiescent (threads s0) ->
  let s := run pv env sched s0 in
  tl s = tl s0 /\
  (forall i, threads s0 !! i = Some PStart ->
     threads s !! i = Some PStart \/ threads s !! i = Some (PDone (checkErr (tl s0)))) /\
  (forall e, checkErr (tl s0) = Some e ->
     Version_result (checkErr (tl s0)) (tl s) = (EmptyString, Some e) /\
     forall ParseFloat h timeout renv args cb,
       Run.env_ready renv = checkErr (tl s0) ->
       Run.rr_err (Run.RunWithProgress ParseFloat h timeout renv args cb)
       = Some (Run.ReadyError e)).
Proof.
  intros Hc Hq. cbv zeta.
  destruct (run_settled pv env (tl s0) s0 sched s0 Hc) as (Ht & _ & _ & Hst).
  { repeat split; auto. }
  split; [exact Ht|]. split; [exact Hst|].
  intros e He. split; [rewrite He; reflexivity|].
  intros PF h timeout renv args cb Hr. unfold Run.RunWithProgress.
  rewrite Hr, He. reflexivity.
Qed.

Lemma ensureReady_cached_replay_witness :
  let s0 := run banner_version mixed_env [0; 0; 0]%nat (callers 2) in
  checked (tl s0) = true /\ quiescent (threads s0) /\
  threads (run banner_version mixed_env [1]%nat s0) !! 1%nat
    = Some (PDone (checkErr (tl s0))).
Proof.
  cbv zeta.
  assert (Hc : checked (tl (run banner_version mixed_env [0; 0; 0]%nat (callers 2))) = true)
    by reflexivity.
  assert (Hq : quiescent (threads (run banner_version mixed_env [0; 0; 0]%nat (callers 2)))).
  { intros i pcv Hi. vm_compute in Hi.
    destruct i as [|[|i]]; simpl in Hi; try discriminate; injection Hi as <-; exact I. }
  split; [exact Hc|]. split; [exact Hq|].
  destruct (ensureReady_cached_replay banner_version mixed_env [1]%nat _ Hc Hq)
    as (_ & Hst & _).
  destruct (Hst 1%nat eq_refl) as [E|E]; [vm_compute in E; discriminate|exact E].
Defined.

End ReadyFacts.

Module CommandFacts.
Import Command.

Section Facts.
Variable growslice : nat -> nat -> nat.

Lemma fresh_ne (h : aheap) o : is_Some (h !! o) -> fresh (dom h) <> o.
Proof.
  intros Ho E. apply (is_fresh (dom h)). rewrite E. now apply elem_of_dom.
Qed.

(** Appending to a slice never writes into another live array. *)
Lemma append_frame h s xs o :
  sarr s <> Some o -> is_Some (h !! o) ->
  (append growslice h s xs).1 !! o = h !! o /\ sarr (append growslice h s xs).2 <> Some o.
Proof.
  intros Hs Ho. unfold append.
  destruct (Nat.leb _ _).
  - destruct (sarr s) as [l|] eqn:E; simpl.
    + assert (l <> o) by congruence. rewrite lookup_insert_ne by congruence.
      split; [reflexivity|congruence].
    + rewrite E. split; [reflexivity|congruence].
  - unfold alloc_array. simpl. pose proof (fresh_ne h o Ho).
    rewrite lookup_insert_ne by congruence. split; [reflexivity|congruence].
Qed.

Lemma drop_y_frame o xs : forall h n,
  sarr n <> Some o -> is_Some (h !! o) ->
  (drop_y growslice h n xs).1 !! o = h !! o /\ sarr (drop_y growslice h n xs).2 <> Some o.
Proof.
  induction xs as [|a rest IH]; intros h n Hn Ho; simpl; [split; [reflexivity|exact Hn]|].
  destruct (String.eqb a "-y"); [now apply IH|].
  destruct (append_frame h n [a] o Hn Ho) as [E1 E2].
  destruct (append growslice h n [a]) as [h1 n1]. simpl in *.
  destruct (IH h1 n1 E2) as [F1 F2]; [rewrite E1; exact Ho|].
  rewrite F1, E1. split; [reflexivity|exact F2].
Qed.

Lemma AppendArgs_frame h c xs o :
  sarr (args c) <> Some o -> is_Some (h !! o) ->
  (AppendArgs growslice h c xs).1 !! o = h !! o /\
  sarr (args (AppendArgs growslice h c xs).2) <> Some o.
Proof.
  intros Hc Ho. unfold AppendArgs.
  destruct (append_frame h (args c) xs o Hc Ho) as [E1 E2].
  destruct (append growslice h (args c) xs). simpl in *. now split.
Qed.

Lemma Overwrite_frame h c on o :
  sarr (args c) <> Some o -> is_Some (h !! o) ->
  (Overwrite growslice h c on).1 !! o = h !! o /\
  sarr (args (Overwrite growslice h c on).2) <> Some o.
Proof.
  intros Hc Ho. unfold Overwrite. destruct on; [now split|].
  unfold make, alloc_array. simpl.
  pose proof (fresh_ne h o Ho) as Hf.
  set (h1 := <[fresh (dom h) := repeat EmptyString (slen (args c))]> h).
  assert (E1 : h1 !! o = h !! o) by (unfold h1; rewrite lookup_insert_ne; congruence).
  destruct (drop_y_frame o (view h (args c)) h1
              (mkSlice (Some (fresh (dom h))) 0 (slen (args c)))) as [F1 F2];
    [simpl; congruence | rewrite E1; exact Ho |].
  destruct (drop_y growslice h1 _ (view h (args c))) as [h2 n2]. simpl in *.
  destruct (AppendArgs_frame h2 (mkCommand n2) ["-n"%string] o) as [G1 G2];
    [exact F2 | rewrite F1, E1; exact Ho |].
  rewrite G1, F1, E1. split; [reflexivity | exact G2].
Qed.

Lemma apply_op_frame h c op o :
  sarr (args c) <> Some o -> is_Some (h !! o) ->
  (apply_op growslice h c op).1 !! o = h !! o /\
  sarr (args (apply_op growslice h c op).2) <> Some o.
Proof.
  intros Hc Ho. destruct op; simpl;
    first [ now apply Overwrite_frame | now apply AppendArgs_frame ].
Qed.

Lemma apply_ops_frame o ops : forall h c,
  sarr (args c) <> Some o -> is_Some (h !! o) ->
  (apply_ops growslice h c ops).1 !! o = h !! o.
Proof.
  induction ops as [|op rest IH]; intros h c Hc Ho; simpl; [reflexivity|].
  destruct (apply_op_frame h c op o Hc Ho) as [E1 E2].
  destruct (apply_op growslice h c op) as [h1 c1]. simpl in *.
  rewrite IH; [exact E1 | exact E2 | rewrite E1; exact Ho].
Qed.

(** C8: the vector [Args] returns is a copy in a fresh array; no later
    builder operation ([AppendArgs], [Overwrite], any fluent mutator)
    changes it. *)
Theorem Args_snapshot_independent (h : aheap) (c : FFmpegCommand) (ops : list op) :
  (forall l, sarr (args c) = Some l -> is_Some (h !! l)) ->
  let r := Args h c in
  view r.1 r.2 = view h (args c) /\
  view (apply_ops growslice r.1 c ops).1 r.2 = view r.1 r.2.
Proof.
  intros Hwf. cbv zeta. unfold Args, alloc_array. simpl.
  set (o := fresh (dom h)).
  assert (Hco : sarr (args c) <> Some o).
  { intros E. destruct (Hwf o E) as [a Ha]. exact (fresh_ne h o (ex_intro _ a Ha) eq_refl). }
  unfold view at 1 3; simpl. rewrite lookup_insert_eq. simpl.
  rewrite firstn_all. split; [reflexivity|].
  unfold view; simpl.
  rewrite (apply_ops_frame o ops (<[o := _]> h) c Hco) by (rewrite lookup_insert_eq; eexists; reflexivity).
  reflexivity.
Qed.

(** [append] extends the view and keeps the slice well formed. *)
Lemma append_view h s xs :
  wf_slice h s ->
  view (append growslice h s xs).1 (append growslice h s xs).2 = view h s ++ xs /\
  wf_slice (append growslice h s xs).1 (append growslice h s xs).2.
Proof.
  unfold wf_slice, append, view. intros Hwf.
  destruct (Nat.leb (slen s + length xs) (scap s)) eqn:Hle.
  - apply Nat.leb_le in Hle.
    destruct (sarr s) as [l|] eqn:E.
    + destruct Hwf as (a & Ha & Hlen & Hsl). simpl. rewrite lookup_insert_eq, Ha. simpl.
      rewrite app_assoc, firstn_app.
      rewrite length_app, length_firstn, Nat.min_l by lia.
      replace (slen s + length xs - (slen s + length xs))%nat with 0%nat by lia.
      rewrite firstn_O, app_nil_r.
      rewrite firstn_all2 by (rewrite length_app, length_firstn; lia).
      split; [reflexivity|].
      eexists; split; [reflexivity|].
      rewrite !length_app, length_firstn, length_skipn. lia.
    + destruct Hwf as [H0 H1]. simpl. rewrite E.
      assert (xs = []) by (destruct xs; simpl in Hle; [reflexivity | lia]). subst xs.
      split; [reflexivity | now split].
  - apply Nat.leb_gt in Hle. unfold alloc_array. simpl. rewrite lookup_insert_eq. simpl.
    assert (Hv : length (match sarr s with
                         | Some l => firstn (slen s) (default [] (h !! l))
                         | None => [] end) = slen s).
    { destruct (sarr s) as [l|].
      - destruct Hwf as (a & Ha & Hlen & Hsl). rewrite Ha. simpl.
        rewrite length_firstn. lia.
      - destruct Hwf as [H0 _]. simpl. lia. }
    set (v := match sarr s with
              | Some l => firstn (slen s) (default [] (h !! l))
              | None => [] end) in *.
    rewrite app_assoc, firstn_app, length_app, Hv.
    rewrite firstn_all2 by (rewrite length_app; lia).
    replace (slen s + length xs - (slen s + length xs))%nat with 0%nat by lia.
    rewrite firstn_O, app_nil_r. split; [reflexivity|].
    eexists; split; [reflexivity|].
    rewrite !length_app, repeat_length, Hv. lia.
Qed.

Lemma drop_y_view xs : forall h n,
  wf_slice h n ->
  view (drop_y growslice h n xs).1 (drop_y growslice h n xs).2
    = view h n ++ List.filter (fun a => negb (String.eqb a "-y")) xs.
Proof.
  induction xs as [|a rest IH]; intros h n Hwf; simpl; [now rewrite app_nil_r|].
  destruct (String.eqb a "-y"); simpl; [now apply IH|].
  destruct (append_view h n [a] Hwf) as [V W].
  destruct (append growslice h n [a]) as [h1 n1]. simpl in *.
  rewrite (IH h1 n1 W), V, <- app_assoc. reflexivity.
Qed.

Lemma drop_y_wf xs : forall h n,
  wf_slice h n -> wf_slice (drop_y growslice h n xs).1 (drop_y growslice h n xs).2.
Proof.
  induction xs as [|a rest IH]; intros h n Wn; simpl; [exact Wn|].
  destruct (String.eqb a "-y"); [now apply IH|].
  destruct (append_view h n [a] Wn) as [_ W].
  destruct (append growslice h n [a]). now apply IH.
Qed.

Lemma AppendArgs_view h c xs :
  wf_slice h (args c) ->
  view (AppendArgs growslice h c xs).1 (args (AppendArgs growslice h c xs).2)
  = view h (args c) ++ xs.
Proof.
  intros W. unfold AppendArgs.
  destruct (append_view h (args c) xs W) as [V _].
  destruct (append growslice h (args c) xs). exact V.
Qed.

(** C9: a new command holds ["-y"]; [Overwrite(true)] changes nothing;
    [Overwrite(false)] keeps the other arguments in order, drops every
    "-y" and appends "-n". *)
Theorem NewFFmpegCommand_overwrite (h : aheap) :
  view (NewFFmpegCommand h).1 (args (NewFFmpegCommand h).2) = ["-y"%string] /\
  (forall h' c, Overwrite growslice h' c true = (h', c)) /\
  (forall h' c,
     view (Overwrite growslice h' c false).1 (args (Overwrite growslice h' c false).2)
     = List.filter (fun a => negb (String.eqb a "-y")) (view h' (args c)) ++ ["-n"%string]).
Proof.
  split; [unfold NewFFmpegCommand, alloc_array, view; simpl; now rewrite lookup_insert_eq|].
  split; [reflexivity|].
  intros h' c. unfold Overwrite, make, alloc_array. simpl.
  assert (Wn : wf_slice (<[fresh (dom h') := repeat EmptyString (slen (args c))]> h')
                 (mkSlice (Some (fresh (dom h'))) 0 (slen (args c)))).
  { unfold wf_slice; simpl. rewrite lookup_insert_eq.
    eexists; split; [reflexivity|]. rewrite repeat_length. lia. }
  pose proof (drop_y_view (view h' (args c)) _ _ Wn) as D.
  pose proof (drop_y_wf (view h' (args c)) _ _ Wn) as Wd.
  destruct (drop_y growslice _ _ _) as [h2 n2] eqn:E.
  simpl in D, Wd.
  rewrite (AppendArgs_view h2 (mkCommand n2) ["-n"%string] Wd). cbn [args].
  rewrite D. reflexivity.
Qed.

End Facts.

Definition double_cap (c n : nat) : nat := Nat.max n (2 * c).

Definition demo_ops : list op :=
  [OInput "in.mp4"; OOverwrite false; OAppendArgs ["-c:v"; "libx264"]]%string.

Lemma Args_snapshot_independent_witness :
  (forall l, sarr (args (NewFFmpegCommand ∅).2) = Some l ->
             is_Some ((NewFFmpegCommand ∅).1 !! l)) /\
  view (apply_ops double_cap (Args (NewFFmpegCommand ∅).1 (NewFFmpegCommand ∅).2).1
          (NewFFmpegCommand ∅).2 demo_ops).1
       (Args (NewFFmpegCommand ∅).1 (NewFFmpegCommand ∅).2).2
  = ["-y"%string].
Proof.
  assert (Hwf : forall l, sarr (args (NewFFmpegCommand ∅).2) = Some l ->
                          is_Some ((NewFFmpegCommand ∅).1 !! l)).
  { intros l E. vm_compute in E. injection E as <-. eexists. vm_compute. reflexivity. }
  split; [exact Hwf|].
  destruct (Args_snapshot_independent double_cap (NewFFmpegCommand ∅).1
              (NewFFmpegCommand ∅).2 demo_ops Hwf) as [E1 E2].
  rewrite E2, E1. vm_compute. reflexivity.
Defined.

End CommandFacts.

(** * Proofs about the rest of the code *)

Module TextFacts.

Lemma len_ind (P : list ascii -> Prop) :
  (forall l, (forall l', (length l' < length l)%nat -> P l') -> P l) -> forall l, P l.
Proof.
  intros H l. apply (Wf_nat.induction_ltof1 _ (@length ascii) P). intros x Hx.
  apply H. intros y Hy. apply Hx. exact Hy.
Qed.

Lemma trim_left_suffix : forall l, exists k, l = k ++ trim_left l.
Proof.
  apply len_ind. intros [|c r] IH; [exists []; reflexivity|].
  cbn [trim_left]. destruct (is_ascii_space c).
  { destruct (IH r) as [k Hk]; [simpl; lia|]. exists (c :: k). simpl. now f_equal. }
  destruct r as [|d r2]; [exists []; reflexivity|].
  destruct (two_space c d).
  { destruct (IH r2) as [k Hk]; [simpl; lia|]. exists (c :: d :: k). simpl. now do 2 f_equal. }
  destruct r2 as [|e r3]; [exists []; reflexivity|].
  destruct (three_space c d e); [|exists []; reflexivity].
  destruct (IH r3) as [k Hk]; [simpl; lia|]. exists (c :: d :: e :: k). simpl. now do 3 f_equal.
Qed.

Lemma trim_left_rev_suffix : forall l, exists k, l = k ++ trim_left_rev l.
Proof.
  apply len_ind. intros [|c r] IH; [exists []; reflexivity|].
  cbn [trim_left_rev]. destruct (is_ascii_space c).
  { destruct (IH r) as [k Hk]; [simpl; lia|]. exists (c :: k). simpl. now f_equal. }
  destruct r as [|d r2]; [exists []; reflexivity|].
  destruct (two_space d c).
  { destruct (IH r2) as [k Hk]; [simpl; lia|]. exists (c :: d :: k). simpl. now do 2 f_equal. }
  destruct r2 as [|e r3]; [exists []; reflexivity|].
  destruct (three_space e d c); [|exists []; reflexivity].
  destruct (IH r3) as [k Hk]; [simpl; lia|]. exists (c :: d :: e :: k). simpl. now do 3 f_equal.
Qed.

Lemma trim_left_length l : (length (trim_left l) <= length l)%nat.
Proof.
  destruct (trim_left_suffix l) as [k Hk]. rewrite Hk at 2. rewrite length_app. lia.
Qed.

Lemma trim_left_rev_length l : (length (trim_left_rev l) <= length l)%nat.
Proof.
  destruct (trim_left_rev_suffix l) as [k Hk]. rewrite Hk at 2. rewrite length_app. lia.
Qed.

Lemma trim_left_idem : forall l, trim_left (trim_left l) = trim_left l.
Proof.
  apply len_ind. intros [|c r] IH; [reflexivity|].
  cbn [trim_left]. destruct (is_ascii_space c) eqn:E1; [apply IH; simpl; lia|].
  destruct r as [|d r2]; [simpl; now rewrite E1|].
  destruct (two_space c d) eqn:E2; [apply IH; simpl; lia|].
  destruct r2 as [|e r3]; [simpl; now rewrite E1, E2|].
  destruct (three_space c d e) eqn:E3; [apply IH; simpl; lia|].
  simpl. now rewrite E1, E2, E3.
Qed.

Lemma trim_left_rev_idem : forall l, trim_left_rev (trim_left_rev l) = trim_left_rev l.
Proof.
  apply len_ind. intros [|c r] IH; [reflexivity|].
  cbn [trim_left_rev]. destruct (is_ascii_space c) eqn:E1; [apply IH; simpl; lia|].
  destruct r as [|d r2]; [simpl; now rewrite E1|].
  destruct (two_space d c) eqn:E2; [apply IH; simpl; lia|].
  destruct r2 as [|e r3]; [simpl; now rewrite E1, E2|].
  destruct (three_space e d c) eqn:E3; [apply IH; simpl; lia|].
  simpl. now rewrite E1, E2, E3.
Qed.

(** A prefix of a list with no leading white space has none either. *)
Lemma trim_left_prefix p q : trim_left (p ++ q) = p ++ q -> trim_left p = p.
Proof.
  intros H. destruct p as [|c p]; [reflexivity|].
  assert (Short : forall x, (length x < length ((c :: p) ++ q))%nat ->
                            trim_left x <> (c :: p) ++ q).
  { intros x Hx E. pose proof (trim_left_length x). rewrite E in H0. lia. }
  simpl in H |- *.
  destruct (is_ascii_space c) eqn:E1.
  { exfalso. apply (Short (p ++ q)); [simpl; lia | exact H]. }
  destruct p as [|d p]; [reflexivity|].
  simpl in H. destruct (two_space c d) eqn:E2.
  { exfalso. apply (Short (p ++ q)); [simpl; rewrite length_app; lia | exact H]. }
  destruct p as [|e p]; [reflexivity|].
  simpl in H. destruct (three_space c d e) eqn:E3; [|reflexivity].
  exfalso. apply (Short (p ++ q)); [simpl; rewrite length_app; lia | exact H].
Qed.

Lemma los_sol l : list_ascii_of_string (string_of_list_ascii l) = l.
Proof. apply list_ascii_of_string_of_list_ascii. Qed.

Lemma sol_los s : string_of_list_ascii (list_ascii_of_string s) = s.
Proof. apply string_of_list_ascii_of_string. Qed.

(** [strings.TrimSpace] is idempotent. *)
Lemma TrimSpace_idem s : TrimSpace (TrimSpace s) = TrimSpace s.
Proof.
  unfold TrimSpace. rewrite los_sol. f_equal.
  set (L1 := trim_left (list_ascii_of_string s)).
  unfold trim_right.
  destruct (trim_left_rev_suffix (rev L1)) as [k Hk].
  set (Y := trim_left_rev (rev L1)) in *.
  assert (HL1 : L1 = rev Y ++ rev k).
  { rewrite <- rev_app_distr, <- Hk, rev_involutive. reflexivity. }
  assert (TL : trim_left (rev Y) = rev Y).
  { apply (trim_left_prefix _ (rev k)). rewrite <- HL1. apply trim_left_idem. }
  rewrite TL, rev_involutive. unfold Y. rewrite trim_left_rev_idem. reflexivity.
Qed.

(** [TrimSpace s] is a contiguous piece of [s]. *)
Lemma TrimSpace_infix s :
  exists a b, list_ascii_of_string s = a ++ list_ascii_of_string (TrimSpace s) ++ b.
Proof.
  unfold TrimSpace. rewrite los_sol.
  destruct (trim_left_suffix (list_ascii_of_string s)) as [k1 H1].
  set (L1 := trim_left (list_ascii_of_string s)) in *.
  destruct (trim_left_rev_suffix (rev L1)) as [k Hk].
  exists k1, (rev k). rewrite H1 at 1. f_equal. unfold trim_right.
  rewrite <- rev_app_distr, <- Hk, rev_involutive. reflexivity.
Qed.

Lemma TrimSpace_no_byte s c :
  ~ In c (list_ascii_of_string s) -> ~ In c (list_ascii_of_string (TrimSpace s)).
Proof.
  intros H Hin. destruct (TrimSpace_infix s) as (a & b & E). apply H. rewrite E.
  apply in_or_app. right. apply in_or_app. now left.
Qed.

(** A byte below 128 that is not ASCII white space never starts or ends a
    white-space rune. *)
Definition plain (c : ascii) : bool :=
  (negb (is_ascii_space c) && Nat.ltb (nat_of_ascii c) 128)%bool.

Lemma plain_two c d : plain c = true -> two_space c d = false /\ two_space d c = false.
Proof.
  unfold plain, two_space, code. intros H. apply andb_prop in H as [_ H].
  apply Nat.ltb_lt in H.
  split; [destruct (Nat.eqb_spec (nat_of_ascii c) 194); [lia | reflexivity] |].
  destruct (Nat.eqb (nat_of_ascii d) 194); [|reflexivity]. simpl.
  destruct (Nat.eqb_spec (nat_of_ascii c) 133); [lia|].
  destruct (Nat.eqb_spec (nat_of_ascii c) 160); [lia|]. reflexivity.
Qed.

Lemma plain_three c d e : plain c = true -> three_space c d e = false /\ three_space e d c = false.
Proof.
  unfold plain, three_space, code. intros H. apply andb_prop in H as [_ H].
  apply Nat.ltb_lt in H. split.
  - destruct (Nat.eqb_spec (nat_of_ascii c) 225); [lia|].
    destruct (Nat.eqb_spec (nat_of_ascii c) 226); [lia|].
    destruct (Nat.eqb_spec (nat_of_ascii c) 227); [lia|]. reflexivity.
  - destruct (Nat.eqb_spec (nat_of_ascii c) 128); [lia|].
    destruct (Nat.eqb_spec (nat_of_ascii c) 159); [lia|].
    destruct (Nat.eqb_spec (nat_of_ascii c) 168); [lia|].
    destruct (Nat.eqb_spec (nat_of_ascii c) 169); [lia|].
    destruct (Nat.eqb_spec (nat_of_ascii c) 175); [lia|].
    destruct (Nat.leb_spec 128 (nat_of_ascii c)); [lia|].
    repeat (rewrite andb_false_r || rewrite andb_false_l || rewrite orb_false_r
            || rewrite orb_false_l). reflexivity.
Qed.

Lemma trim_left_plain c r : plain c = true -> trim_left (c :: r) = c :: r.
Proof.
  intros P. pose proof P as P'. unfold plain in P'. apply andb_prop in P' as [S _].
  apply negb_true_iff in S. simpl. rewrite S.
  destruct r as [|d [|e r]]; [reflexivity | |].
  - now rewrite (proj1 (plain_two c d P)).
  - rewrite (proj1 (plain_two c d P)), (proj1 (plain_three c d e P)). reflexivity.
Qed.

Lemma trim_left_rev_plain c r : plain c = true -> trim_left_rev (c :: r) = c :: r.
Proof.
  intros P. pose proof P as P'. unfold plain in P'. apply andb_prop in P' as [S _].
  apply negb_true_iff in S. simpl. rewrite S.
  destruct r as [|d [|e r]]; [reflexivity | |].
  - now rewrite (proj2 (plain_two c d P)).
  - rewrite (proj2 (plain_two c d P)), (proj2 (plain_three c d e P)). reflexivity.
Qed.

(** A string whose first and last bytes are plain is its own [TrimSpace]. *)
Lemma TrimSpace_plain_ends c m d :
  plain c = true -> plain d = true ->
  TrimSpace (string_of_list_ascii (c :: m ++ [d])) = string_of_list_ascii (c :: m ++ [d]).
Proof.
  intros Pc Pd. unfold TrimSpace. rewrite los_sol, trim_left_plain by exact Pc.
  unfold trim_right. change (c :: m ++ [d]) with ((c :: m) ++ [d]).
  rewrite rev_app_distr. change (rev [d] ++ rev (c :: m)) with (d :: rev (c :: m)).
  rewrite trim_left_rev_plain by exact Pd.
  change (rev (d :: rev (c :: m))) with (rev (rev (c :: m)) ++ [d]).
  rewrite rev_involutive. reflexivity.
Qed.

Lemma TrimSpace_plain1 c : plain c = true ->
  TrimSpace (String c EmptyString) = String c EmptyString.
Proof.
  intros P. unfold TrimSpace. change (list_ascii_of_string (String c "")) with [c].
  rewrite trim_left_plain by exact P. unfold trim_right. change (rev [c]) with [c].
  rewrite trim_left_rev_plain by exact P. reflexivity.
Qed.

Lemma IndexByte_None s c : IndexByte s c = None <-> ~ In c (list_ascii_of_string s).
Proof.
  induction s as [|d r IH]; simpl; [tauto|].
  destruct (Ascii.eqb_spec c d) as [->|Hne].
  - split; [discriminate | intros H; exfalso; apply H; now left].
  - destruct (IndexByte r c) eqn:E; simpl.
    + split; [discriminate|]. intros H. exfalso. apply H. right.
      destruct (in_dec ascii_dec c (list_ascii_of_string r)) as [Hin|Hin]; [exact Hin|].
      apply IH in Hin. discriminate.
    + split; [|reflexivity]. intros _ [E'|Hin]; [congruence|].
      exact (proj1 IH eq_refl Hin).
Qed.

Lemma sapp_cons x (r b : string) : (String x r ++ b = String x (r ++ b))%string.
Proof. reflexivity. Qed.

Lemma sapp_nil (b : string) : ("" ++ b = b)%string.
Proof. reflexivity. Qed.

Lemma sapp_assoc (a b c : string) : ((a ++ b) ++ c = a ++ (b ++ c))%string.
Proof.
  induction a as [|x r IH]; [reflexivity|]. rewrite !sapp_cons. now f_equal.
Qed.

Lemma sapp_nil_r (a : string) : (a ++ "" = a)%string.
Proof. induction a as [|x r IH]; [reflexivity|]. rewrite sapp_cons. now f_equal. Qed.

Lemma los_app (a b : string) :
  list_ascii_of_string (a ++ b) = list_ascii_of_string a ++ list_ascii_of_string b.
Proof. induction a as [|x r IH]; [reflexivity|]. rewrite sapp_cons. simpl. now f_equal. Qed.

Lemma ReplaceAll_app a b c n :
  ReplaceAll (a ++ b) c n = (ReplaceAll a c n ++ ReplaceAll b c n)%string.
Proof.
  induction a as [|x r IH]; [reflexivity|]. rewrite sapp_cons. simpl.
  destruct (Ascii.eqb x c); rewrite IH; [now rewrite sapp_assoc | reflexivity].
Qed.

Lemma ReplaceAll_absent s c n : ~ In c (list_ascii_of_string s) -> ReplaceAll s c n = s.
Proof.
  induction s as [|x r IH]; simpl; [reflexivity|]. intros H.
  destruct (Ascii.eqb_spec x c) as [->|_]; [exfalso; apply H; now left|].
  rewrite IH; [reflexivity | tauto].
Qed.

Lemma ReplaceAll_no_byte s c n d :
  ~ In d (list_ascii_of_string n) -> (d = c \/ ~ In d (list_ascii_of_string s)) ->
  ~ In d (list_ascii_of_string (ReplaceAll s c n)).
Proof.
  intros Hn. induction s as [|x r IH]; simpl; [tauto|]. intros Hs.
  destruct (Ascii.eqb_spec x c) as [->|Hxc].
  - rewrite los_app. intros Hin. apply in_app_or in Hin as [Hin|Hin]; [exact (Hn Hin)|].
    apply IH; [destruct Hs; tauto | exact Hin].
  - simpl. intros [E|Hin].
    + subst x. destruct Hs as [->|Hs]; [exact (Hxc eq_refl) | apply Hs; now left].
    + apply IH; [destruct Hs; tauto | exact Hin].
Qed.

End TextFacts.

Module WebTextFacts.
Import GoText Web TextFacts.

Lemma no_byte_empty d : ~ In d (list_ascii_of_string "").
Proof. simpl. tauto. Qed.

Lemma eqb_ne (a b : string) : a <> b -> String.eqb a b = false.
Proof. intros H. destruct (String.eqb_spec a b); [contradiction | reflexivity]. Qed.

Lemma sanitize_props n :
  sanitizeFilename n <> ""%string /\
  ~ In DQ (list_ascii_of_string (sanitizeFilename n)) /\
  ~ In LF (list_ascii_of_string (sanitizeFilename n)) /\
  ~ In CR (list_ascii_of_string (sanitizeFilename n)) /\
  TrimSpace (sanitizeFilename n) = sanitizeFilename n.
Proof.
  unfold sanitizeFilename.
  set (r1 := ReplaceAll n DQ "").
  set (r2 := ReplaceAll r1 LF "").
  set (r3 := ReplaceAll r2 CR "").
  destruct (String.eqb_spec (TrimSpace r3) "") as [E|E].
  { split; [discriminate|]. split; [apply IndexByte_None; reflexivity|].
    split; [apply IndexByte_None; reflexivity|]. split; [apply IndexByte_None; reflexivity|].
    reflexivity. }
  assert (D1 : ~ In DQ (list_ascii_of_string r1))
    by (apply ReplaceAll_no_byte; [apply no_byte_empty | now left]).
  assert (D2 : ~ In DQ (list_ascii_of_string r2) /\ ~ In LF (list_ascii_of_string r2)).
  { split; apply ReplaceAll_no_byte; try apply no_byte_empty; [right; exact D1 | now left]. }
  assert (D3 : ~ In DQ (list_ascii_of_string r3) /\ ~ In LF (list_ascii_of_string r3)
               /\ ~ In CR (list_ascii_of_string r3)).
  { destruct D2 as [D2a D2b].
    split; [|split]; apply ReplaceAll_no_byte; try apply no_byte_empty;
      [right; exact D2a | right; exact D2b | now left]. }
  destruct D3 as (D3a & D3b & D3c).
  split; [exact E|]. split; [now apply TrimSpace_no_byte|].
  split; [now apply TrimSpace_no_byte|]. split; [now apply TrimSpace_no_byte|].
  apply TrimSpace_idem.
Qed.

(** [sanitizeFilename] (used for the [Content-Disposition] header) never
    returns an empty name and never returns a double quote, a line feed or
    a carriage return. *)
Theorem sanitizeFilename_safe (name : string) :
  sanitizeFilename name <> ""%string /\
  IndexByte (sanitizeFilename name) DQ = None /\
  IndexByte (sanitizeFilename name) LF = None /\
  IndexByte (sanitizeFilename name) CR = None.
Proof.
  destruct (sanitize_props name) as (H0 & H1 & H2 & H3 & _).
  rewrite !IndexByte_None. tauto.
Qed.

(** [sanitizeFilename] is idempotent. *)
Theorem sanitizeFilename_idem (name : string) :
  sanitizeFilename (sanitizeFilename name) = sanitizeFilename name.
Proof.
  destruct (sanitize_props name) as (H0 & H1 & H2 & H3 & H4).
  set (x := sanitizeFilename name) in *.
  unfold sanitizeFilename at 1.
  rewrite (ReplaceAll_absent x DQ "" H1), (ReplaceAll_absent x LF "" H2),
          (ReplaceAll_absent x CR "" H3), H4.
  rewrite (eqb_ne x "" H0). reflexivity.
Qed.

(** [chooseNonEmpty] returns a trimmed string, empty exactly when both
    arguments are blank. *)
Theorem chooseNonEmpty_trimmed (a b : string) :
  TrimSpace (chooseNonEmpty a b) = chooseNonEmpty a b /\
  (chooseNonEmpty a b = ""%string <-> TrimSpace a = ""%string /\ TrimSpace b = ""%string).
Proof.
  unfold chooseNonEmpty.
  destruct (String.eqb_spec (TrimSpace a) "") as [Ea|Ea]; simpl.
  - split; [apply TrimSpace_idem|]. tauto.
  - split; [apply TrimSpace_idem|]. tauto.
Qed.

(** The messages an [appendErr] chain keeps: trimmed, the blank ones
    dropped. *)
Definition kept (ms : list string) : list string :=
  List.filter (fun m => negb (String.eqb m "")) (map TrimSpace ms).

Definition joined (e : string) (k : list string) : string :=
  match k with
  | [] => e
  | _ => if String.eqb e "" then String.concat (String LF "") k
         else (e ++ String LF (String.concat (String LF "") k))%string
  end.

Lemma appendErr_fold ms : forall e, fold_left appendErr ms e = joined e (kept ms).
Proof.
  induction ms as [|m ms IH]; intros e; [reflexivity|].
  simpl. rewrite IH. unfold kept at 2. simpl. fold (kept ms).
  unfold appendErr.
  destruct (String.eqb_spec (TrimSpace m) "") as [Em|Em]; simpl; [reflexivity|].
  set (t := TrimSpace m) in *. set (K := kept ms).
  assert (Ne : forall x y, (x ++ String LF y)%string <> ""%string).
  { intros [|c x] y; discriminate. }
  destruct (String.eqb_spec e "") as [->|Ee].
  - destruct K as [|k K]; simpl; [reflexivity|].
    rewrite (eqb_ne t "" Em). reflexivity.
  - destruct K as [|k K]; simpl; [reflexivity|].
    rewrite (eqb_ne _ "" (Ne e t)). rewrite sapp_assoc. reflexivity.
Qed.

(** Accumulating error messages with [appendErr] from an empty text (as
    the index handler does with [data.Error]) gives the trimmed non-blank
    messages in order, separated by single line feeds. *)
Theorem appendErr_accumulates (ms : list string) :
  fold_left appendErr ms ""%string = String.concat (String LF "") (kept ms).
Proof.
  rewrite appendErr_fold. unfold joined. destruct (kept ms); reflexivity.
Qed.

(** [writeSSE] writes one frame [event: e], [data: d'], blank line; the
    data line [d'] holds no line feed and no carriage return, whatever the
    data. *)
Theorem writeSSE_frame (event data : string) :
  exists d', writeSSE event data =
             ("event: " ++ event ++ String LF "" ++ "data: " ++ d' ++ String LF (String LF ""))%string
           /\ IndexByte d' LF = None /\ IndexByte d' CR = None.
Proof.
  exists (ReplaceAll (ReplaceAll data CR "") LF "\n"). unfold writeSSE.
  split; [now rewrite !sapp_assoc|].
  rewrite !IndexByte_None. split.
  - apply ReplaceAll_no_byte; [|now left]. simpl. intros [E|[E|[]]]; discriminate.
  - apply ReplaceAll_no_byte; [simpl; intros [E|[E|[]]]; discriminate|].
    right. apply ReplaceAll_no_byte; [apply no_byte_empty | now left].
Qed.

(** The escaping of [writeSSE] loses information: a line feed and the
    two characters backslash, [n] give the same frame, and a carriage
    return is dropped. *)
Theorem writeSSE_not_injective (event s t : string) :
  writeSSE event (s ++ String LF t) = writeSSE event (s ++ "\n" ++ t) /\
  writeSSE event (s ++ String CR t) = writeSSE event (s ++ t).
Proof.
  unfold writeSSE. rewrite !ReplaceAll_app. split; [reflexivity|].
  change (ReplaceAll (String CR t) CR "") with (ReplaceAll t CR "").
  reflexivity.
Qed.

End WebTextFacts.

Module NumFacts.
Import Command GoText StrConvGo Web TextFacts.

Definition digit_char (c : ascii) : Prop :=
  exists k, (k < 10)%nat /\ c = ascii_of_nat (k + 48).

Lemma digit_char_digit c : digit_char c -> exists d, digit c = Some d.
Proof.
  intros (k & Hk & ->). unfold digit. rewrite nat_ascii_embedding by lia.
  destruct (Nat.leb_spec 48 (k + 48)); [|lia].
  destruct (Nat.leb_spec (k + 48) 57); [|lia]. simpl. eexists; reflexivity.
Qed.

Lemma digit_char_plain c : digit_char c -> plain c = true.
Proof.
  intros (k & Hk & ->).
  do 10 (destruct k as [|k]; [reflexivity|]). lia.
Qed.

Lemma digit_range c d : digit c = Some d -> 0 <= d <= 9.
Proof.
  unfold digit. destruct (Nat.leb_spec 48 (nat_of_ascii c)); [|discriminate].
  destruct (Nat.leb_spec (nat_of_ascii c) 57); [|discriminate]. simpl.
  intros E. injection E as <-. lia.
Qed.

Lemma sol_app a b :
  string_of_list_ascii (a ++ b) = (string_of_list_ascii a ++ string_of_list_ascii b)%string.
Proof. induction a as [|x r IH]; [reflexivity|]. simpl. rewrite sapp_cons. now f_equal. Qed.

Lemma digits_acc_app acc (s1 s2 : string) :
  digits_acc acc (s1 ++ s2) =
  match digits_acc acc s1 with Some a => digits_acc a s2 | None => None end.
Proof.
  revert acc. induction s1 as [|c r IH]; intros acc; [reflexivity|].
  rewrite sapp_cons. simpl. destruct (digit c); [apply IH | reflexivity].
Qed.

Lemma digits_rev_spec f : forall n acc, 0 <= n < 10 ^ Z.of_nat f ->
  digits_acc acc (string_of_list_ascii (rev (digits_rev f n)))
  = Some (acc * 10 ^ Z.of_nat (length (digits_rev f n)) + n) /\
  Forall digit_char (digits_rev f n).
Proof.
  induction f as [|f IH]; intros n acc Hn.
  - simpl in Hn. simpl. split; [f_equal; lia | constructor].
  - assert (Hm : 0 <= n mod 10 < 10) by (apply Z.mod_pos_bound; lia).
    assert (Dc : digit_char (ascii_of_nat (Z.to_nat (n mod 10) + 48)))
      by (exists (Z.to_nat (n mod 10)); split; [lia | reflexivity]).
    assert (Dd : digit (ascii_of_nat (Z.to_nat (n mod 10) + 48)) = Some (n mod 10)).
    { unfold digit. rewrite nat_ascii_embedding by lia.
      destruct (Nat.leb_spec 48 (Z.to_nat (n mod 10) + 48)); [|lia].
      destruct (Nat.leb_spec (Z.to_nat (n mod 10) + 48) 57); [|lia]. simpl. f_equal. lia. }
    simpl digits_rev. destruct (Z.ltb_spec n 10).
    + simpl. rewrite Dd. split; [|constructor; [exact Dc | constructor]].
      rewrite Z.mod_small by lia. f_equal; ring.
    + assert (Hq : 0 <= n / 10 < 10 ^ Z.of_nat f).
      { split; [apply Z.div_pos; lia|]. apply Z.div_lt_upper_bound; [lia|].
        rewrite Nat2Z.inj_succ, Z.pow_succ_r in Hn by lia. lia. }
      destruct (IH (n / 10) acc Hq) as [E F].
      split; [|constructor; [exact Dc | exact F]].
      cbn [rev]. rewrite sol_app, digits_acc_app, E. simpl. rewrite Dd.
      f_equal. rewrite Nat2Z.inj_succ, Z.pow_succ_r by lia.
      assert (Ring : forall a P q r, (a * P + q) * 10 + r = a * (10 * P) + (10 * q + r))
        by (intros; ring).
      rewrite Ring, <- Z.div_mod by lia. reflexivity.
Qed.

Lemma digits_rev_nonempty f n : digits_rev (S f) n <> [].
Proof. simpl. destruct (n <? 10); discriminate. Qed.

(** The sign handling shared by [ParseInt], [ParseInt64]. *)
Definition sign (s : string) : bool * string :=
  match s with
  | String "+" t => (false, t)
  | String "-" t => (true, t)
  | _ => (false, s)
  end.

Definition range64 (r : option Z) : option Z :=
  match r with
  | Some n => if (int64_min <=? n) && (n <=? int64_max) then Some n else None
  | None => None
  end.

Definition int_of (neg : bool) (r : Z * option num_err) : Z * option num_err :=
  let '(un, e) := r in
  match e with
  | Some ErrSyntax => (0, Some ErrSyntax)
  | _ =>
    if negb neg && (2 ^ 63 <=? un) then (2 ^ 63 - 1, Some ErrRange)
    else if neg && (2 ^ 63 <? un) then (- 2 ^ 63, Some ErrRange)
    else ((if neg then - un else un), e)
  end.

Lemma ParseInt10_sign s :
  ParseInt10 s = range64 (if fst (sign s) then option_map Z.opp (digits (snd (sign s)))
                          else digits (snd (sign s))).
Proof.
  destruct s as [|c t]; [reflexivity|].
  destruct c as [[] [] [] [] [] [] [] []]; reflexivity.
Qed.

Lemma ParseInt64_sign s : s <> ""%string ->
  ParseInt64 s = int_of (fst (sign s)) (ParseUint10 (snd (sign s))).
Proof.
  intros Hs. destruct s as [|c t]; [contradiction|].
  destruct c as [[] [] [] [] [] [] [] []]; reflexivity.
Qed.

Lemma sign_digit c t d : digit c = Some d -> sign (String c t) = (false, String c t).
Proof. intros H. destruct c as [[] [] [] [] [] [] [] []]; try discriminate H; reflexivity. Qed.

Lemma digits_acc_mono t : forall n v, 0 <= n -> digits_acc n t = Some v -> n <= v.
Proof.
  induction t as [|c r IH]; intros n v Hn H; simpl in H.
  - injection H as <-. lia.
  - destruct (digit c) as [d|] eqn:Ed; [|discriminate].
    pose proof (digit_range c d Ed). apply IH in H; lia.
Qed.

Lemma parse_uint_loop_digits t : forall n v, 0 <= n <= maxUint64 ->
  digits_acc n t = Some v ->
  parse_uint_loop n t = if v <=? maxUint64 then (v, None) else (maxUint64, Some ErrRange).
Proof.
  induction t as [|c r IH]; intros n v Hn H; simpl in H |- *.
  - injection H as <-. destruct (Z.leb_spec n maxUint64); [reflexivity | lia].
  - destruct (digit c) as [d|] eqn:Ed; [|discriminate].
    pose proof (digit_range c d Ed).
    pose proof (digits_acc_mono r (n * 10 + d) v ltac:(lia) H) as Mv.
    assert (Hc : cutoff10 = 1844674407370955162) by reflexivity.
    assert (Hmax : maxUint64 = 18446744073709551615) by reflexivity.
    destruct (Z.leb_spec cutoff10 n).
    + destruct (Z.leb_spec v maxUint64); [lia | reflexivity].
    + destruct (Z.ltb_spec maxUint64 (n * 10 + d)).
      * destruct (Z.leb_spec v maxUint64); [lia | reflexivity].
      * apply IH; [lia | exact H].
Qed.

Lemma ParseUint10_digits t v : digits t = Some v ->
  ParseUint10 t = if v <=? maxUint64 then (v, None) else (maxUint64, Some ErrRange).
Proof.
  destruct t as [|c r]; [discriminate|]. intros H. apply parse_uint_loop_digits; [|exact H].
  unfold maxUint64. lia.
Qed.

Lemma parse_uint_loop_bounds t : forall n, 0 <= n <= maxUint64 ->
  0 <= fst (parse_uint_loop n t) <= maxUint64.
Proof.
  induction t as [|c r IH]; intros n Hn; simpl; [exact Hn|].
  destruct (digit c) as [d|] eqn:Ed; simpl; [|unfold maxUint64; lia].
  pose proof (digit_range c d Ed).
  destruct (cutoff10 <=? n); simpl; [unfold maxUint64; lia|].
  destruct (Z.ltb_spec maxUint64 (n * 10 + d)); simpl; [unfold maxUint64; lia|].
  apply IH. lia.
Qed.

Lemma ParseUint10_bounds t : 0 <= fst (ParseUint10 t) <= maxUint64.
Proof.
  destruct t as [|c r]; [simpl; unfold maxUint64; lia|].
  unfold ParseUint10. apply parse_uint_loop_bounds. unfold maxUint64. lia.
Qed.

Lemma digits_nonneg t v : digits t = Some v -> 0 <= v.
Proof. destruct t as [|c r]; [discriminate|]. intros H. exact (digits_acc_mono _ 0 v (Z.le_refl 0) H). Qed.

(** [ParseInt64] agrees with [ParseInt10] where the latter succeeds. *)
Lemma ParseInt64_agrees s n : ParseInt10 s = Some n -> ParseInt64 s = (n, None).
Proof.
  intros H. assert (Hs : s <> ""%string) by (intros ->; discriminate).
  rewrite ParseInt64_sign by exact Hs. rewrite ParseInt10_sign in H.
  destruct (sign s) as [neg t]. simpl in *.
  destruct (digits t) as [v|] eqn:Ev; [|destruct neg; discriminate].
  pose proof (digits_nonneg t v Ev).
  rewrite (ParseUint10_digits t v Ev).
  destruct neg; simpl in H; unfold int64_min, int64_max, maxUint64 in *.
  - destruct (Z.leb_spec (- 2 ^ 63) (- v)); [|discriminate].
    destruct (Z.leb_spec (- v) (2 ^ 63 - 1)); [|discriminate].
    injection H as <-.
    destruct (Z.leb_spec v (2 ^ 64 - 1)); [|lia]. simpl.
    destruct (Z.ltb_spec (2 ^ 63) v); [lia | reflexivity].
  - destruct (Z.leb_spec (- 2 ^ 63) v); [|discriminate].
    destruct (Z.leb_spec v (2 ^ 63 - 1)); [|discriminate].
    injection H as <-.
    destruct (Z.leb_spec v (2 ^ 64 - 1)); [|lia]. simpl.
    destruct (Z.leb_spec (2 ^ 63) v); [lia | reflexivity].
Qed.

Lemma ParseInt64_bounds s : int64_min <= fst (ParseInt64 s) <= int64_max.
Proof.
  unfold int64_min, int64_max.
  destruct (String.eqb_spec s "") as [->|Hs]; [simpl; lia|].
  rewrite ParseInt64_sign by exact Hs. destruct (sign s) as [neg t]. simpl.
  pose proof (ParseUint10_bounds t) as B. destruct (ParseUint10 t) as [un e]. simpl in B.
  unfold maxUint64 in B. unfold int_of.
  destruct e as [[]|]; simpl; [lia| |];
    destruct neg; simpl;
    repeat match goal with |- context [if ?b then _ else _] =>
      let E := fresh in destruct b eqn:E; simpl end;
    try lia;
    repeat match goal with
           | H : (_ <=? _) = _ |- _ => first [apply Z.leb_le in H | apply Z.leb_gt in H]
           | H : (_ <? _) = _ |- _ => first [apply Z.ltb_lt in H | apply Z.ltb_ge in H]
           end; lia.
Qed.

Lemma itoa_shape n : 0 <= Z.abs n < 10 ^ 20 ->
  exists c rest, rev (digits_rev 20 (Z.abs n)) = c :: rest /\ digit_char c /\
    Forall digit_char rest /\
    digits_acc 0 (string_of_list_ascii (c :: rest)) = Some (Z.abs n).
Proof.
  intros Hn.
  destruct (digits_rev_spec 20 (Z.abs n) 0 Hn) as [E F].
  pose proof (digits_rev_nonempty 19 (Z.abs n)) as Ne.
  destruct (rev (digits_rev 20 (Z.abs n))) as [|c rest] eqn:R.
  { apply (f_equal (@rev ascii)) in R. rewrite rev_involutive in R. contradiction. }
  apply Forall_rev in F. rewrite R in F. inversion F as [|? ? Fc Fr]; subst.
  exists c, rest. split; [reflexivity|]. split; [exact Fc|]. split; [exact Fr|].
  rewrite E. f_equal; lia.
Qed.

Lemma Forall_last {A} (P : A -> Prop) (rest : list A) :
  Forall P rest -> rest = [] \/ exists m d, rest = m ++ [d] /\ P d.
Proof.
  intros Fr. destruct rest as [|x r] using rev_ind; [now left|].
  right. exists r, x. split; [reflexivity|]. apply Forall_app in Fr as [_ Fx].
  now inversion Fx.
Qed.

Lemma itoa_Atoi_TrimSpace n : int64_min <= n <= int64_max ->
  Atoi (itoa n) = Some n /\ TrimSpace (itoa n) = itoa n /\ itoa n <> ""%string.
Proof.
  intros Hr.
  assert (Hb : 0 <= Z.abs n < 10 ^ 20).
  { unfold int64_min, int64_max in Hr.
    assert (10 ^ 20 = 100000000000000000000) by reflexivity. lia. }
  destruct (itoa_shape n Hb) as (c & rest & R & Dc & Fr & Dv).
  destruct (digit_char_digit c Dc) as [d Dd].
  unfold itoa. rewrite R.
  assert (Pc := digit_char_plain c Dc).
  destruct (Z.ltb_spec n 0).
  - split.
    + unfold Atoi, ParseInt10. cbn [option_map].
      change (digits (string_of_list_ascii (c :: rest))) with
             (digits_acc 0 (string_of_list_ascii (c :: rest))).
      rewrite Dv. simpl. rewrite Z.abs_neq by lia. rewrite Z.opp_involutive.
      unfold int64_min, int64_max in *.
      destruct (Z.leb_spec (- 2 ^ 63) n); [|lia]. destruct (Z.leb_spec n (2^63 - 1)); [|lia].
      reflexivity.
    + split; [|discriminate].
      destruct (Forall_last digit_char rest Fr) as [E|(m & d' & E & Pd)].
      * subst rest.
        change (String "-" (string_of_list_ascii [c]))
          with (string_of_list_ascii ("-"%char :: [] ++ [c])).
        apply TrimSpace_plain_ends; [reflexivity | exact Pc].
      * rewrite E.
        change (String "-" (string_of_list_ascii (c :: m ++ [d'])))
          with (string_of_list_ascii ("-"%char :: (c :: m) ++ [d'])).
        apply TrimSpace_plain_ends; [reflexivity | exact (digit_char_plain d' Pd)].
  - split.
    + unfold Atoi. simpl string_of_list_ascii. rewrite ParseInt10_sign.
      rewrite (sign_digit c _ d Dd). cbn [fst snd].
      change (digits_acc 0 (String c (string_of_list_ascii rest)) = Some (Z.abs n)) in Dv.
      change (digits (String c (string_of_list_ascii rest)))
        with (digits_acc 0 (String c (string_of_list_ascii rest))).
      rewrite Dv. simpl range64. rewrite Z.abs_eq by lia.
      unfold int64_min, int64_max in *.
      destruct (Z.leb_spec (- 2 ^ 63) n); [|lia]. destruct (Z.leb_spec n (2^63 - 1)); [|lia].
      reflexivity.
    + split; [|simpl; discriminate].
      destruct (Forall_last digit_char rest Fr) as [E|(m & d' & E & Pd)].
      * subst rest. apply TrimSpace_plain1. exact Pc.
      * rewrite E. apply TrimSpace_plain_ends; [exact Pc | exact (digit_char_plain d' Pd)].
Qed.

(** [parseInt] reads back what [itoa] ([strconv.Itoa]) writes: for every
    int64 value and default, [parseInt(itoa(n), def) = n]. *)
Theorem parseInt_itoa (n def : Z) :
  int64_min <= n <= int64_max -> parseInt (itoa n) def = n.
Proof.
  intros Hr. destruct (itoa_Atoi_TrimSpace n Hr) as (A & T & Ne).
  unfold parseInt. rewrite T, (WebTextFacts.eqb_ne _ _ Ne), A. reflexivity.
Qed.

Lemma parseInt_itoa_witness :
  (int64_min <= -42 <= int64_max) /\ parseInt (itoa (-42)) 0 = -42.
Proof.
  split; [unfold int64_min, int64_max; lia|].
  apply (parseInt_itoa (-42) 0). unfold int64_min, int64_max. lia.
Defined.

(** A decimal field too large for int64: [parseInt] falls back to its
    default, while [parseInt64] saturates to int64's maximum, or to its
    minimum for a negative field, instead of giving 0. *)
Theorem parse_overflow_fallbacks (s t : string) (v def : Z) :
  digits t = Some v -> int64_max < v ->
  (TrimSpace s = t -> parseInt s def = def /\ parseInt64 s = int64_max) /\
  (TrimSpace s = String "-" t -> 2 ^ 63 < v -> parseInt s def = def /\ parseInt64 s = int64_min).
Proof.
  intros Hv Hbig.
  assert (Hmax : int64_max = 2 ^ 63 - 1) by reflexivity.
  assert (Hmin : int64_min = - 2 ^ 63) by reflexivity.
  assert (HU : 2 ^ 63 < maxUint64) by reflexivity.
  split.
  - intros Ht.
    destruct t as [|c r]; [discriminate|].
    assert (Hd : exists d, digit c = Some d).
    { simpl in Hv. destruct (digit c) as [d|]; [now exists d | discriminate]. }
    destruct Hd as [d Hd].
    split.
    + unfold parseInt. rewrite Ht. simpl String.eqb. cbv iota.
      unfold Atoi. rewrite ParseInt10_sign, (sign_digit c r d Hd). simpl fst. simpl snd.
      rewrite Hv. simpl. destruct (Z.leb_spec v int64_max); [lia|].
      rewrite andb_false_r. reflexivity.
    + unfold parseInt64. rewrite Ht. simpl String.eqb. cbv iota.
      rewrite ParseInt64_sign by discriminate. rewrite (sign_digit c r d Hd).
      cbn [fst snd]. rewrite (ParseUint10_digits _ v Hv). unfold int_of.
      destruct (Z.leb_spec v maxUint64); simpl;
        (destruct (Z.leb_spec (2 ^ 63) v) || destruct (Z.leb_spec (2 ^ 63) maxUint64));
        simpl; lia.
  - intros Ht Hbig'. split.
    + unfold parseInt. rewrite Ht. simpl String.eqb. cbv iota.
      unfold Atoi, ParseInt10. simpl. unfold digits in Hv |- *. rewrite Hv. simpl.
      rewrite Hmin. destruct (Z.leb_spec (- 2 ^ 63) (- v)); [lia|]. reflexivity.
    + unfold parseInt64. rewrite Ht. simpl String.eqb. cbv iota.
      rewrite ParseInt64_sign by discriminate. cbn [sign fst snd].
      rewrite (ParseUint10_digits _ v Hv). unfold int_of.
      destruct (Z.leb_spec v maxUint64); simpl;
        (destruct (Z.ltb_spec (2 ^ 63) v) || destruct (Z.ltb_spec (2 ^ 63) maxUint64));
        simpl; lia.
Qed.

Lemma parse_overflow_fallbacks_witness :
  digits "99999999999999999999" = Some 99999999999999999999 /\
  (parseInt "99999999999999999999" 7 = 7 /\ parseInt64 "99999999999999999999" = int64_max) /\
  (parseInt " -99999999999999999999" 7 = 7 /\
   parseInt64 " -99999999999999999999" = int64_min).
Proof.
  assert (Hd : digits "99999999999999999999" = Some 99999999999999999999) by reflexivity.
  assert (Hb : int64_max < 99999999999999999999) by (unfold int64_max; lia).
  destruct (parse_overflow_fallbacks "99999999999999999999" _ _ 7 Hd Hb) as [A _].
  destruct (parse_overflow_fallbacks " -99999999999999999999" _ _ 7 Hd Hb) as [_ B].
  split; [exact Hd|]. split; [apply A; reflexivity|].
  apply B; [reflexivity | lia].
Defined.

(** [parseInt64] always returns an int64 value, and it is the value of
    [strconv.ParseInt] whenever the trimmed field parses. *)
Theorem parseInt64_sound (s : string) :
  int64_min <= parseInt64 s <= int64_max /\
  (forall n, ParseInt10 (TrimSpace s) = Some n -> parseInt64 s = n).
Proof.
  split.
  - unfold parseInt64. destruct (String.eqb (TrimSpace s) ""); [unfold int64_min, int64_max; lia|].
    apply ParseInt64_bounds.
  - intros n H. unfold parseInt64.
    destruct (String.eqb_spec (TrimSpace s) "") as [E|E]; [rewrite E in H; discriminate|].
    rewrite (ParseInt64_agrees _ n H). reflexivity.
Qed.

End NumFacts.

Module VersionFacts.
Import GoStrings GoText Versions TextFacts.

Lemma Split_app_LF s t : ~ In LF (list_ascii_of_string s) ->
  exists xs, Split (s ++ String LF t) LF = s :: xs.
Proof.
  induction s as [|c r IH]; intros Hs.
  - rewrite sapp_nil. cbn [Split]. rewrite Ascii.eqb_refl. eexists; reflexivity.
  - rewrite sapp_cons. cbn [list_ascii_of_string In] in Hs. cbn [Split].
    destruct (Ascii.eqb_spec c LF) as [E|E]; [exfalso; apply Hs; left; congruence|].
    destruct IH as [xs Hx]; [intros H; apply Hs; right; exact H|].
    rewrite Hx. eexists; reflexivity.
Qed.

Lemma Split_no_LF s : ~ In LF (list_ascii_of_string s) -> Split s LF = [s].
Proof.
  induction s as [|c r IH]; intros Hs; [reflexivity|].
  cbn [list_ascii_of_string In] in Hs. cbn [Split].
  destruct (Ascii.eqb_spec c LF) as [E|E]; [exfalso; apply Hs; left; congruence|].
  rewrite IH; [reflexivity|]. intros H; apply Hs; right; exact H.
Qed.

Lemma first_line_app s t : ~ In LF (list_ascii_of_string s) ->
  first_line (s ++ String LF t) = s /\ first_line s = s.
Proof.
  intros Hs. unfold first_line. rewrite (Split_no_LF s Hs).
  destruct (Split_app_LF s t Hs) as [xs ->]. now split.
Qed.

(** A field of [Fields]: non-empty, and free of ASCII white space. *)
Definition field_ok (x : list ascii) : Prop :=
  x <> [] /\ Forall (fun c => is_ascii_space c = false) x.

Lemma flush_ok cur rest :
  Forall (fun c => is_ascii_space c = false) cur -> Forall field_ok rest ->
  Forall field_ok (flush cur rest).
Proof.
  intros Hc Hr. destruct cur as [|c r]; simpl; [exact Hr|].
  constructor; [split; [discriminate | exact Hc] | exact Hr].
Qed.

Lemma fields_acc_ok : forall l cur,
  Forall (fun c => is_ascii_space c = false) cur -> Forall field_ok (fields_acc cur l).
Proof.
  induction l as [l IH] using len_ind. intros cur Hc.
  destruct l as [|c r]; simpl; [apply flush_ok; [exact Hc | constructor]|].
  destruct (is_ascii_space c) eqn:Sc.
  - apply flush_ok; [exact Hc|]. apply IH; [simpl; lia | constructor].
  - assert (Hc' : Forall (fun c => is_ascii_space c = false) (cur ++ [c]))
      by (apply Forall_app; split; [exact Hc | constructor; [exact Sc | constructor]]).
    destruct r as [|d r2]; [apply IH; [simpl; lia | exact Hc']|].
    destruct (two_space c d).
    + apply flush_ok; [exact Hc|]. apply IH; [simpl; lia | constructor].
    + destruct r2 as [|e r3]; [apply IH; [simpl; lia | exact Hc']|].
      destruct (three_space c d e).
      * apply flush_ok; [exact Hc|]. apply IH; [simpl; lia | constructor].
      * apply IH; [simpl; lia | exact Hc'].
Qed.

Lemma Fields_ok s x : In x (Fields s) ->
  x <> ""%string /\ Forall (fun c => is_ascii_space c = false) (list_ascii_of_string x).
Proof.
  unfold Fields. intros Hx. apply in_map_iff in Hx as (y & <- & Hy).
  pose proof (fields_acc_ok (list_ascii_of_string s) [] ltac:(constructor)) as F.
  rewrite List.Forall_forall in F. destruct (F y Hy) as [Ne Fy].
  rewrite los_sol. split; [|exact Fy].
  destruct y; [contradiction | discriminate].
Qed.

Section Parts.
Variable ToLower : string -> string.

Lemma version_after_in parts :
  version_after ToLower parts = ""%string \/ In (version_after ToLower parts) parts.
Proof.
  induction parts as [|a rest IH]; [now left|].
  destruct rest as [|b rest']; [now left|].
  change (version_after ToLower (a :: b :: rest'))
    with (if String.eqb (ToLower a) "version" then b else version_after ToLower (b :: rest')).
  destruct (String.eqb (ToLower a) "version").
  - right. right. left. reflexivity.
  - destruct IH as [E|E]; [now left | right; right; exact E].
Qed.

Lemma version_after_first pre a b rest :
  ToLower a = "version"%string ->
  Forall (fun x => ToLower x <> "version"%string) pre ->
  version_after ToLower (pre ++ a :: b :: rest) = b.
Proof.
  intros Ha Hpre. induction pre as [|x pre IH].
  - simpl. rewrite Ha. reflexivity.
  - inversion Hpre as [|? ? Hx Hp]; subst. simpl app.
    destruct (pre ++ a :: b :: rest) as [|y ys] eqn:E; [destruct pre; discriminate|].
    change (version_after ToLower (x :: y :: ys))
      with (if String.eqb (ToLower x) "version" then y else version_after ToLower (y :: ys)).
    destruct (String.eqb_spec (ToLower x) "version"); [contradiction|].
    now apply IH.
Qed.

End Parts.

(** Both banner parsers read the first line only: text after the first
    line break never changes their result. *)
Theorem version_first_line (ToLower : string -> string) (s t : string) :
  ~ In LF (list_ascii_of_string s) ->
  parseFFmpegVersion ToLower (s ++ String LF t) = parseFFmpegVersion ToLower s /\
  parseFFProbeVersion ToLower (s ++ String LF t) = parseFFProbeVersion ToLower s.
Proof.
  intros Hs. destruct (first_line_app s t Hs) as [E1 E2].
  unfold parseFFmpegVersion, parseFFProbeVersion. rewrite E1, E2. now split.
Qed.

Lemma version_first_line_witness :
  ~ In LF (list_ascii_of_string "ffprobe version 6.1") /\
  parseFFProbeVersion (fun x => x) ("ffprobe version 6.1" ++ String LF "built with gcc")
  = parseFFProbeVersion (fun x => x) "ffprobe version 6.1".
Proof.
  assert (H : ~ In LF (list_ascii_of_string "ffprobe version 6.1"))
    by (apply IndexByte_None; reflexivity).
  split; [exact H|]. apply (version_first_line (fun x => x) _ "built with gcc" H).
Defined.

(** [parseFFmpegVersion] returns the field after the first field whose
    lower case is "version" in the trimmed first line; what it returns is
    "" or a field of that line: non-empty, without ASCII white space. *)
Theorem parseFFmpegVersion_spec (ToLower : string -> string) (s : string) :
  (forall pre a b rest,
     Fields (TrimSpace (first_line s)) = pre ++ a :: b :: rest ->
     ToLower a = "version"%string ->
     Forall (fun x => ToLower x <> "version"%string) pre ->
     parseFFmpegVersion ToLower s = b) /\
  (parseFFmpegVersion ToLower s = ""%string \/
   (In (parseFFmpegVersion ToLower s) (Fields (TrimSpace (first_line s))) /\
    Forall (fun c => is_ascii_space c = false)
      (list_ascii_of_string (parseFFmpegVersion ToLower s)))).
Proof.
  unfold parseFFmpegVersion. split.
  - intros pre a b rest E Ha Hpre. rewrite E. now apply version_after_first.
  - destruct (version_after_in ToLower (Fields (TrimSpace (first_line s)))) as [E|E];
      [now left|].
    right. split; [exact E|]. apply (Fields_ok _ _ E).
Qed.

Lemma parseFFmpegVersion_spec_witness :
  Fields (TrimSpace (first_line "ffmpeg version 6.1 Copyright"))
  = ["ffmpeg"; "version"; "6.1"; "Copyright"]%string /\
  parseFFmpegVersion (fun x => x) "ffmpeg version 6.1 Copyright" = "6.1"%string.
Proof.
  assert (E : Fields (TrimSpace (first_line "ffmpeg version 6.1 Copyright"))
              = ["ffmpeg"; "version"; "6.1"; "Copyright"]%string) by reflexivity.
  split; [exact E|].
  destruct (parseFFmpegVersion_spec (fun x => x) "ffmpeg version 6.1 Copyright") as [A _].
  apply (A ["ffmpeg"%string] "version"%string "6.1"%string ["Copyright"%string] E eq_refl).
  constructor; [discriminate | constructor].
Defined.


End VersionFacts.

Module PresetFacts.
Import Command Presets Web CommandFacts.

(** The words a fluent mutator other than [Overwrite] appends. *)
Definition op_words (o : op) : list string :=
  match o with
  | OAppendArgs xs => xs
  | OHideBanner => ["-hide_banner"]
  | OLogLevel level => ["-v"; level]
  | OInput path => ["-i"; path]
  | OOverwrite _ => []
  | OOutput path => [path]
  | OVideoCodec codec => ["-c:v"; codec]
  | OAudioCodec codec => ["-c:a"; codec]
  | OCopyVideo => ["-c:v"; "copy"]
  | OCopyAudio => ["-c:a"; "copy"]
  | OCRF v => ["-crf"; itoa v]
  | OPreset p => ["-preset"; p]
  | OTune t => ["-tune"; t]
  | OMovFlagsFastStart => ["-movflags"; "+faststart"]
  | OMap spec => ["-map"; spec]
  | OScale w hgt => ["-vf"; "scale=" ++ itoa w ++ ":" ++ itoa hgt]
  | OFPS fps => ["-r"; fps]
  | OStartAt s => ["-ss"; s]
  end%string.

Definition appends_only (o : op) : bool :=
  match o with OOverwrite _ => false | _ => true end.

Section Facts.
Variable growslice : nat -> nat -> nat.

Lemma AppendArgs_wf h c xs :
  wf_slice h (args c) ->
  wf_slice (AppendArgs growslice h c xs).1 (args (AppendArgs growslice h c xs).2).
Proof.
  intros W. unfold AppendArgs.
  destruct (append_view growslice h (args c) xs W) as [_ W'].
  destruct (append growslice h (args c) xs). exact W'.
Qed.

Lemma apply_op_append h c o :
  appends_only o = true -> wf_slice h (args c) ->
  view (apply_op growslice h c o).1 (args (apply_op growslice h c o).2)
    = view h (args c) ++ op_words o /\
  wf_slice (apply_op growslice h c o).1 (args (apply_op growslice h c o).2).
Proof.
  intros Ho W. destruct o; try discriminate Ho; cbn [apply_op op_words];
    (split; [apply AppendArgs_view | apply AppendArgs_wf]; exact W).
Qed.

Lemma apply_ops_append os : forall h c,
  forallb appends_only os = true -> wf_slice h (args c) ->
  view (apply_ops growslice h c os).1 (args (apply_ops growslice h c os).2)
    = view h (args c) ++ concat (map op_words os) /\
  wf_slice (apply_ops growslice h c os).1 (args (apply_ops growslice h c os).2).
Proof.
  induction os as [|o rest IH]; intros h c Ho W; cbn [apply_ops map concat].
  - rewrite app_nil_r. now split.
  - apply andb_prop in Ho as [H1 H2].
    destruct (apply_op_append h c o H1 W) as [V W1].
    destruct (apply_op growslice h c o) as [h1 c1]. simpl in V, W1.
    destruct (IH h1 c1 H2 W1) as [V2 W2]. rewrite V2, V, app_assoc. now split.
Qed.

Lemma NewFFmpegCommand_wf h :
  view (NewFFmpegCommand h).1 (args (NewFFmpegCommand h).2) = ["-y"%string] /\
  wf_slice (NewFFmpegCommand h).1 (args (NewFFmpegCommand h).2).
Proof.
  unfold NewFFmpegCommand, alloc_array, wf_slice, view. simpl.
  rewrite lookup_insert_eq. split; [reflexivity|].
  eexists; split; [reflexivity | simpl; lia].
Qed.

Lemma build_view h os :
  forallb appends_only os = true ->
  view (build growslice h os).1 (args (build growslice h os).2)
    = "-y"%string :: concat (map op_words os).
Proof.
  intros Ho. unfold build. destruct (NewFFmpegCommand_wf h) as [V W].
  destruct (NewFFmpegCommand h) as [h1 c]. simpl in V, W.
  destruct (apply_ops_append os h1 c Ho W) as [V2 _]. rewrite V2, V. reflexivity.
Qed.

Lemma build_frame h os o :
  is_Some (h !! o) -> (build growslice h os).1 !! o = h !! o.
Proof.
  intros Ho. unfold build, NewFFmpegCommand, alloc_array. simpl.
  pose proof (fresh_ne h o Ho) as Hf.
  rewrite (apply_ops_frame growslice o os).
  - rewrite lookup_insert_ne by congruence. reflexivity.
  - simpl. congruence.
  - rewrite lookup_insert_ne by congruence. exact Ho.
Qed.

Lemma eqb_default (s d : string) :
  exists p, (if String.eqb s "" then d else s) = p /\ (s <> ""%string -> p = s) /\
            (s = ""%string -> p = d).
Proof.
  eexists; split; [reflexivity|].
  destruct (String.eqb_spec s ""); split; intros; congruence.
Qed.

(** [PresetTranscodeMP4H264AAC] builds
    [-y -hide_banner -v error -i IN -c:v libx264 -c:a aac -crf C -preset P
    -movflags +faststart OUT]: [C] is the given CRF when positive and 23
    otherwise, [P] the given preset when non-empty and "medium" otherwise. *)
Theorem PresetTranscodeMP4H264AAC_args (h : aheap) (input output : string) (crf : Z)
    (preset : string) :
  exists c p,
    view (PresetTranscodeMP4H264AAC growslice h input output crf preset).1
         (args (PresetTranscodeMP4H264AAC growslice h input output crf preset).2)
    = ["-y"; "-hide_banner"; "-v"; "error"; "-i"; input; "-c:v"; "libx264";
       "-c:a"; "aac"; "-crf"; itoa c; "-preset"; p; "-movflags"; "+faststart";
       output]%string /\
    0 < c /\ (0 < crf -> c = crf) /\ (crf <= 0 -> c = 23) /\
    p <> ""%string /\ (preset <> ""%string -> p = preset) /\
    (preset = ""%string -> p = "medium"%string).
Proof.
  destruct (eqb_default preset "medium") as (p & Ep & P1 & P2).
  exists (if crf <=? 0 then 23 else crf), p.
  unfold PresetTranscodeMP4H264AAC. rewrite Ep, build_view by reflexivity.
  split; [reflexivity|].
  split; [destruct (Z.leb_spec crf 0); lia|].
  split; [intros; destruct (Z.leb_spec crf 0); lia|].
  split; [intros; destruct (Z.leb_spec crf 0); lia|].
  split; [|split; assumption].
  destruct (String.eqb_spec preset ""); [rewrite P2 by assumption; discriminate|].
  rewrite P1 by assumption. assumption.
Qed.

(** [PresetExtractAAC] builds [-y -hide_banner -v error -i IN -vn -c:a aac
    -b:a B OUT]: no video stream, and [B] is the given bitrate when
    non-empty and "128k" otherwise. *)
Theorem PresetExtractAAC_args (h : aheap) (input output bitrate : string) :
  exists b,
    view (PresetExtractAAC growslice h input output bitrate).1
         (args (PresetExtractAAC growslice h input output bitrate).2)
    = ["-y"; "-hide_banner"; "-v"; "error"; "-i"; input; "-vn"; "-c:a"; "aac";
       "-b:a"; b; output]%string /\
    b <> ""%string /\ (bitrate <> ""%string -> b = bitrate) /\
    (bitrate = ""%string -> b = "128k"%string).
Proof.
  destruct (eqb_default bitrate "128k") as (b & Eb & B1 & B2).
  exists b. unfold PresetExtractAAC. rewrite Eb, build_view by reflexivity.
  split; [reflexivity|]. split; [|split; assumption].
  destruct (String.eqb_spec bitrate ""); [rewrite B2 by assumption; discriminate|].
  rewrite B1 by assumption. assumption.
Qed.

(** [PresetRemux] copies both streams; [PresetSnapshot] seeks with [-ss]
    before the input (input seeking) and writes one video frame. *)
Theorem PresetRemux_Snapshot_args (Sprintf3f : float -> string) (h : aheap)
    (input output : string) (at_ : float) :
  view (PresetRemux growslice h input output).1
       (args (PresetRemux growslice h input output).2)
  = ["-y"; "-hide_banner"; "-v"; "error"; "-i"; input; "-c:v"; "copy";
     "-c:a"; "copy"; output]%string /\
  view (PresetSnapshot growslice Sprintf3f h input output at_).1
       (args (PresetSnapshot growslice Sprintf3f h input output at_).2)
  = ["-y"; "-hide_banner"; "-v"; "error"; "-ss"; Sprintf3f at_; "-i"; input;
     "-frames:v"; "1"; output]%string.
Proof.
  unfold PresetRemux, PresetSnapshot. rewrite !build_view by reflexivity.
  split; reflexivity.
Qed.

(** No preset writes to an array that was already allocated: each
    builds a fresh command. *)
Theorem Presets_fresh (Sprintf3f : float -> string) (h : aheap) (input output : string)
    (crf : Z) (preset bitrate : string) (at_ : float) (o : aloc) :
  is_Some (h !! o) ->
  (PresetTranscodeMP4H264AAC growslice h input output crf preset).1 !! o = h !! o /\
  (PresetRemux growslice h input output).1 !! o = h !! o /\
  (PresetExtractAAC growslice h input output bitrate).1 !! o = h !! o /\
  (PresetSnapshot growslice Sprintf3f h input output at_).1 !! o = h !! o.
Proof.
  intros Ho. unfold PresetTranscodeMP4H264AAC, PresetRemux, PresetExtractAAC, PresetSnapshot.
  rewrite !build_frame by exact Ho. repeat split.
Qed.

End Facts.

Section Start.
Variable growslice : nat -> nat -> nat.
Variable Sprintf3f : float -> string.
Variable ParseFloatValue : string -> float.

Lemma parseInt_Atoi s n def : Atoi (TrimSpace s) = Some n -> parseInt s def = n.
Proof.
  intros A. unfold parseInt. cbv zeta.
  destruct (String.eqb_spec (TrimSpace s) "") as [E|_].
  - rewrite E in A. discriminate.
  - rewrite A. reflexivity.
Qed.

Lemma parseInt_not_Atoi s def :
  (forall n, Atoi (TrimSpace s) = Some n -> n <= 0) -> parseInt s def = def \/ parseInt s def <= 0.
Proof.
  intros A. unfold parseInt. cbv zeta.
  destruct (String.eqb (TrimSpace s) ""); [now left|].
  destruct (Atoi (TrimSpace s)) as [n|] eqn:E; [right; now apply A | now left].
Qed.

(** The [/ffmpeg/start] handler, default action: the transcode command
    gets a positive CRF, the form's value whenever [strconv.Atoi] reads
    the trimmed value as a positive integer (in any form it accepts, such
    as "+28" or "028") and 23 otherwise, and a non-empty preset, the
    trimmed form value when there is one. *)
Theorem start_command_transcode (h : aheap) (actionF crfF presetF abitrateF atF : string)
    (inputPath outputPath : string) :
  TrimSpace actionF <> "extract_aac"%string -> TrimSpace actionF <> "snapshot"%string ->
  TrimSpace actionF <> "remux"%string ->
  exists c p,
    view (start_command growslice Sprintf3f ParseFloatValue h actionF crfF presetF abitrateF
            atF inputPath outputPath).1
         (args (start_command growslice Sprintf3f ParseFloatValue h actionF crfF presetF
                  abitrateF atF inputPath outputPath).2)
    = ["-y"; "-hide_banner"; "-v"; "error"; "-i"; inputPath; "-c:v"; "libx264";
       "-c:a"; "aac"; "-crf"; itoa c; "-preset"; p; "-movflags"; "+faststart";
       outputPath]%string /\
    0 < c /\
    (forall n, 0 < n -> Atoi (TrimSpace crfF) = Some n -> c = n) /\
    ((forall n, Atoi (TrimSpace crfF) = Some n -> n <= 0) -> c = 23) /\
    p <> ""%string /\ (TrimSpace presetF <> ""%string -> p = TrimSpace presetF).
Proof.
  intros A1 A2 A3. unfold start_command.
  rewrite (WebTextFacts.eqb_ne _ _ A1), (WebTextFacts.eqb_ne _ _ A2),
          (WebTextFacts.eqb_ne _ _ A3).
  set (pr := if String.eqb (TrimSpace presetF) "" then "medium"%string else TrimSpace presetF).
  destruct (PresetTranscodeMP4H264AAC_args growslice h inputPath outputPath
              (parseInt crfF 23) pr) as (c & p & V & Hc & C1 & C2 & Hp & P1 & _).
  exists c, p. split; [exact V|]. split; [exact Hc|]. split; [|split].
  - intros n Hn E. rewrite (parseInt_Atoi crfF n 23 E) in C1. now apply C1.
  - intros A. destruct (parseInt_not_Atoi crfF 23 A) as [E|E].
    + rewrite E in C1. now apply C1.
    + now apply C2.
  - split; [exact Hp|]. intros Hne. rewrite P1; unfold pr.
    + now rewrite (WebTextFacts.eqb_ne _ _ Hne).
    + destruct (String.eqb_spec (TrimSpace presetF) ""); [discriminate | assumption].
Qed.

(** The other actions of [/ffmpeg/start]: [extract_aac] gets a non-empty
    bitrate, the trimmed form value when there is one; [snapshot] seeks to
    a time that is not negative ([atSec < 0] is false); [remux] copies. *)
Theorem start_command_other_actions (h : aheap) (actionF crfF presetF abitrateF atF : string)
    (inputPath outputPath : string) :
  let r := start_command growslice Sprintf3f ParseFloatValue h actionF crfF presetF abitrateF
             atF inputPath outputPath in
  (TrimSpace actionF = "extract_aac"%string ->
   exists b, view r.1 (args r.2)
     = ["-y"; "-hide_banner"; "-v"; "error"; "-i"; inputPath; "-vn"; "-c:a"; "aac";
        "-b:a"; b; outputPath]%string /\
     b <> ""%string /\ (TrimSpace abitrateF <> ""%string -> b = TrimSpace abitrateF)) /\
  (TrimSpace actionF = "snapshot"%string ->
   exists x, view r.1 (args r.2)
     = ["-y"; "-hide_banner"; "-v"; "error"; "-ss"; Sprintf3f x; "-i"; inputPath;
        "-frames:v"; "1"; outputPath]%string /\ PrimFloat.ltb x 0%float = false) /\
  (TrimSpace actionF = "remux"%string ->
   view r.1 (args r.2)
     = ["-y"; "-hide_banner"; "-v"; "error"; "-i"; inputPath; "-c:v"; "copy";
        "-c:a"; "copy"; outputPath]%string).
Proof.
  cbv zeta. unfold start_command. split; [|split].
  - intros E. rewrite E. cbv iota beta. simpl String.eqb. cbv iota.
    set (ab := if String.eqb (TrimSpace abitrateF) "" then "128k"%string
               else TrimSpace abitrateF).
    destruct (PresetExtractAAC_args growslice h inputPath outputPath ab)
      as (b & V & Hb & B1 & _).
    exists b. split; [exact V|]. split; [exact Hb|]. intros Hne. rewrite B1; unfold ab.
    + now rewrite (WebTextFacts.eqb_ne _ _ Hne).
    + destruct (String.eqb_spec (TrimSpace abitrateF) ""); [discriminate | assumption].
  - intros E. rewrite E. simpl String.eqb. cbv iota.
    set (x0 := ParseFloatValue (TrimSpace atF)).
    exists (if PrimFloat.ltb x0 0%float then 0%float else x0).
    split; [apply (PresetRemux_Snapshot_args growslice Sprintf3f h inputPath outputPath)|].
    destruct (PrimFloat.ltb x0 0%float) eqn:L; [reflexivity | exact L].
  - intros E. rewrite E. simpl String.eqb. cbv iota.
    apply (PresetRemux_Snapshot_args growslice Sprintf3f h inputPath outputPath 0%float).
Qed.

End Start.

Definition grow2 (c n : nat) : nat := Nat.max n (2 * c).

Lemma Presets_fresh_witness :
  is_Some ((<[1%positive := ["x"%string]]> (∅ : aheap)) !! 1%positive) /\
  (PresetRemux grow2 (<[1%positive := ["x"%string]]> ∅) "in.mp4" "out.mp4").1 !! 1%positive
  = Some ["x"%string].
Proof.
  assert (H : is_Some ((<[1%positive := ["x"%string]]> (∅ : aheap)) !! 1%positive))
    by (eexists; reflexivity).
  split; [exact H|].
  destruct (Presets_fresh grow2 (fun _ => "0.000"%string) _ "in.mp4" "out.mp4" 23
              "medium" "128k" 0%float 1%positive H) as (_ & R & _).
  rewrite R. reflexivity.
Defined.

(** The CRF field "+028", which [strconv.Atoi] reads as 28. *)
Lemma start_command_transcode_witness :
  TrimSpace "+028 " <> "extract_aac"%string /\ Atoi (TrimSpace "+028 ") = Some 28 /\
  view (start_command grow2 (fun _ => "0.000"%string) (fun _ => 0%float) ∅
          "transcode" "+028 " " slow " "" "" "in.mp4" "out.mp4").1
       (args (start_command grow2 (fun _ => "0.000"%string) (fun _ => 0%float) ∅
          "transcode" "+028 " " slow " "" "" "in.mp4" "out.mp4").2)
  = ["-y"; "-hide_banner"; "-v"; "error"; "-i"; "in.mp4"; "-c:v"; "libx264";
     "-c:a"; "aac"; "-crf"; "28"; "-preset"; "slow"; "-movflags"; "+faststart";
     "out.mp4"]%string.
Proof.
  assert (A : Atoi (TrimSpace "+028 ") = Some 28) by (vm_compute; reflexivity).
  split; [vm_compute; discriminate|]. split; [exact A|].
  destruct (start_command_transcode grow2 (fun _ => "0.000"%string) (fun _ => 0%float) ∅
              "transcode" "+028 " " slow " "" "" "in.mp4" "out.mp4")
    as (c & p & V & _ & C & _ & _ & P); [discriminate | discriminate | discriminate |].
  rewrite V. rewrite (C 28); [| lia | exact A].
  rewrite P by (vm_compute; discriminate). reflexivity.
Defined.

Lemma start_command_other_actions_witness :
  TrimSpace " remux" = "remux"%string /\
  view (start_command grow2 (fun _ => "0.000"%string) (fun _ => 0%float) ∅
          " remux" "" "" "" "" "in.mkv" "out.mp4").1
       (args (start_command grow2 (fun _ => "0.000"%string) (fun _ => 0%float) ∅
          " remux" "" "" "" "" "in.mkv" "out.mp4").2)
  = ["-y"; "-hide_banner"; "-v"; "error"; "-i"; "in.mkv"; "-c:v"; "copy";
     "-c:a"; "copy"; "out.mp4"]%string.
Proof.
  assert (E : TrimSpace " remux" = "remux"%string) by reflexivity.
  split; [exact E|].
  destruct (start_command_other_actions grow2 (fun _ => "0.000"%string) (fun _ => 0%float) ∅
              " remux" "" "" "" "" "in.mkv" "out.mp4") as (_ & _ & R).
  exact (R E).
Defined.

End PresetFacts.

Module ProbeFacts.
Import Ready Run FFProbe FFProbeMedia.

Section Facts.
Variable Unmarshal : string -> string + FFProbeJSON.

(** [Probe] returns exactly one of a result and an error. A timeout is
    reported only for an output error that is not an exit error, seen
    with the deadline passed, and it carries the effective timeout, which
    is positive; an exit error is reported as a failure of ffprobe even
    when the deadline has passed. *)
Theorem Probe_outcomes (Timeout : Z) (env : probe_env) :
  (fst (Probe Unmarshal Timeout env) = None <-> snd (Probe Unmarshal Timeout env) <> None) /\
  (forall t, snd (Probe Unmarshal Timeout env) = Some (PTimedOut t) ->
     pe_ready env = None /\ (exists d, pe_output env = OutOtherError d) /\
     pe_ctx env = Some DeadlineExceeded /\ t = Probe_timeout Timeout /\ 0 < t) /\
  (forall d se, pe_ready env = None -> pe_output env = OutExitError d se ->
     snd (Probe Unmarshal Timeout env) = Some (PFailed d se)).
Proof.
  unfold Probe. destruct env as [r o cx]; simpl.
  split; [|split].
  - destruct r; [simpl; split; [congruence | reflexivity]|].
    destruct o as [b|d se|d]; simpl.
    + destruct (Unmarshal b); simpl; split; congruence.
    + split; congruence.
    + destruct cx as [[]|]; simpl; split; congruence.
  - intros t H. destruct r; [discriminate|].
    destruct o as [b|d se|d]; simpl in H.
    + destruct (Unmarshal b); discriminate.
    + discriminate.
    + destruct cx as [[]|]; try discriminate. injection H as <-.
      split; [reflexivity|]. split; [eexists; reflexivity|]. split; [reflexivity|].
      split; [reflexivity|]. unfold Probe_timeout, second. destruct (Z.leb_spec Timeout 0); lia.
  - intros d se -> ->. reflexivity.
Qed.

(** [ProbeSafe] reports the error of [Probe] and never one of [Version]:
    its result is [Probe]'s, with the version text when [Version]
    succeeds and "" when it fails. *)
Theorem ProbeSafe_spec (Timeout : Z) (env : probe_env) (version : string * option check_err) :
  let r := ProbeSafe Unmarshal Timeout env version in
  r.2 = snd (Probe Unmarshal Timeout env) /\
  r.1.1 = fst (Probe Unmarshal Timeout env) /\
  r.1.2 = (if snd version then ""%string else fst version).
Proof.
  cbv zeta. unfold ProbeSafe.
  destruct (Probe_outcomes Timeout env) as [[X Y] _].
  destruct (Probe Unmarshal Timeout env) as [info err]. simpl in X, Y.
  destruct version as [ver [e|]]; destruct err as [err|]; simpl;
    repeat split; try reflexivity; symmetry; apply Y; discriminate.
Qed.

End Facts.

(** [FirstVideo] and [FirstAudio] point at the first stream of their
    type, and are nil exactly when there is none; they never point at the
    same stream. *)
Theorem first_index_spec (ty : string) (l : list Stream) :
  (forall i, first_index ty l = Some i ->
     (exists s, nth_error l i = Some s /\ CodecType s = ty) /\
     (forall j s, (j < i)%nat -> nth_error l j = Some s -> CodecType s <> ty)) /\
  (first_index ty l = None <-> Forall (fun s => CodecType s <> ty) l) /\
  (forall p, FirstVideo p = None \/ FirstVideo p <> FirstAudio p).
Proof.
  split; [|split].
  - induction l as [|s r IH]; intros i H; simpl in H; [discriminate|].
    destruct (String.eqb_spec (CodecType s) ty) as [E|E].
    + injection H as <-. split; [exists s; split; [reflexivity | exact E]|].
      intros j s' Hj. lia.
    + destruct (first_index ty r) as [k|] eqn:Ek; simpl in H; [|discriminate].
      injection H as <-. destruct (IH k eq_refl) as [[s' [N C]] B].
      split; [exists s'; split; [exact N | exact C]|].
      intros j s0 Hj Nj. destruct j as [|j]; simpl in Nj.
      * injection Nj as <-. exact E.
      * apply (B j s0); [lia | exact Nj].
  - induction l as [|s r IH]; simpl; [split; [constructor | reflexivity]|].
    destruct (String.eqb_spec (CodecType s) ty) as [E|E].
    + split; [discriminate|]. intros F. inversion F; contradiction.
    + destruct (first_index ty r); simpl.
      * split; [discriminate|]. intros F. inversion F as [|? ? _ F']. apply IH in F'.
        discriminate.
      * split; [intros _; constructor; [exact E | apply IH; reflexivity] | reflexivity].
  - intros p. unfold FirstVideo, FirstAudio.
    destruct (first_index "video" (Streams p)) as [i|] eqn:Ev; [right|now left].
    intros Ea. symmetry in Ea.
    assert (Gen : forall (l' : list Stream) k,
              first_index "video" l' = Some k -> first_index "audio" l' = Some k -> False).
    { intros l'. induction l' as [|s r IH]; intros k V A; simpl in V, A; [discriminate|].
      destruct (String.eqb_spec (CodecType s) "video") as [E1|E1];
        destruct (String.eqb_spec (CodecType s) "audio") as [E2|E2].
      - rewrite E1 in E2. discriminate.
      - injection V as <-. destruct (first_index "audio" r); discriminate.
      - injection A as <-. destruct (first_index "video" r); discriminate.
      - destruct (first_index "video" r) as [a|], (first_index "audio" r) as [b|];
          simpl in V, A; try discriminate.
        injection V as <-. injection A as E. subst b. eapply IH; reflexivity. }
    exact (Gen _ _ Ev Ea).
Qed.

(** Every ffprobe argument vector ends with the input, and the words
    before it are never empty: an empty stream selector or read interval
    is left out, not passed as "". *)
Theorem ffprobe_args_shape (input selectStreams readIntervals : string) :
  Forall (fun args => exists pre, args = pre ++ [input] /\ Forall (fun a => a <> ""%string) pre)
    [Probe_args input; ProbePackets_args input selectStreams;
     ProbeFrames_args input selectStreams readIntervals;
     ProbeChapters_args input; ProbePrograms_args input].
Proof.
  assert (Opt : forall k v, k <> ""%string ->
            Forall (fun a => a <> ""%string) (if String.eqb v "" then [] else [k; v])).
  { intros k v Hk. destruct (String.eqb_spec v ""); [constructor|].
    constructor; [exact Hk | constructor; [assumption | constructor]]. }
  repeat constructor.
  - exists ["-v"; "error"; "-hide_banner"; "-show_format"; "-show_streams"; "-of"; "json"]%string.
    split; [reflexivity|]. repeat constructor; discriminate.
  - eexists; split.
    + unfold ProbePackets_args. rewrite app_assoc. reflexivity.
    + apply Forall_app. split; [repeat constructor; discriminate|]. apply Opt. discriminate.
  - eexists; split.
    + unfold ProbeFrames_args. rewrite (app_assoc (if String.eqb selectStreams "" then [] else _)).
      rewrite app_assoc. reflexivity.
    + apply Forall_app. split; [repeat constructor; discriminate|].
      apply Forall_app. split; apply Opt; discriminate.
  - exists ["-v"; "error"; "-hide_banner"; "-show_chapters"; "-of"; "json"]%string.
    split; [reflexivity|]. repeat constructor; discriminate.
  - exists ["-v"; "error"; "-hide_banner"; "-show_programs"; "-of"; "json"]%string.
    split; [reflexivity|]. repeat constructor; discriminate.
Qed.

End ProbeFacts.

Module FramesFacts.
Import FFProbeMedia Web CommandFacts.

Lemma fresh_none {A} (h : gmap positive A) : h !! fresh (dom h) = None.
Proof. apply not_elem_of_dom. apply is_fresh. Qed.

Lemma fresh_ne' {A} (h : gmap positive A) o : is_Some (h !! o) -> fresh (dom h) <> o.
Proof. intros Ho E. apply (is_fresh (dom h)). rewrite E. now apply elem_of_dom. Qed.

(** The frames part of the index handler: the frames it renders are the
    probed ones, filtered to video key frames when [FramesKeyOnly] is
    set, then cut to the first [FramesLimit] when that is positive; the
    probed frames themselves, and every other object, are left as they
    were; a nil result stays nil. *)
Theorem advanced_frames_pipeline (h : fheap) (frames : option positive) (keyOnly : bool)
    (limit : Z) :
  let r := advanced_frames h frames keyOnly limit in
  frames_of r.1 r.2 =
    (let fs := if keyOnly then List.filter is_key_video (frames_of h frames)
               else frames_of h frames in
     if 0 <? limit then firstn (Z.to_nat limit) fs else fs) /\
  (forall o, is_Some (h !! o) -> r.1 !! o = h !! o) /\
  (frames = None -> r.2 = None).
Proof.
  cbv zeta. unfold advanced_frames.
  assert (F : let r := if keyOnly then filterKeyFrames h frames else (h, frames) in
              frames_of r.1 r.2 = (if keyOnly then List.filter is_key_video (frames_of h frames)
                                   else frames_of h frames) /\
              (forall o, is_Some (h !! o) -> r.1 !! o = h !! o) /\
              (frames = None -> r.2 = None)).
  { destruct keyOnly; simpl; [|split; [reflexivity | split; [reflexivity | auto]]].
    unfold filterKeyFrames. destruct frames as [l|]; simpl.
    - split; [rewrite lookup_insert_eq; reflexivity|]. split; [|discriminate].
      intros o Ho. rewrite lookup_insert_ne by (apply fresh_ne'; exact Ho). reflexivity.
    - split; [reflexivity | split; reflexivity]. }
  cbv zeta in F.
  destruct (if keyOnly then filterKeyFrames h frames else (h, frames)) as [h1 f1].
  simpl in F. destruct F as (V & Fr & N).
  destruct (Z.ltb_spec 0 limit) as [Hl|Hl]; simpl; [|split; [exact V | split; assumption]].
  unfold limitFrames. destruct f1 as [l|].
  - simpl in V. destruct ((limit <=? 0) || (Z.of_nat (length (default [] (h1 !! l))) <=? limit))%bool
      eqn:C; simpl.
    + split; [|split; [exact Fr | intros E; apply N in E; discriminate]].
      rewrite <- V. apply orb_true_iff in C as [C|C]; [apply Z.leb_le in C; lia|].
      apply Z.leb_le in C. symmetry. apply firstn_all2. lia.
    + split; [rewrite lookup_insert_eq; simpl; now rewrite V|].
      split; [|intros E; apply N in E; discriminate].
      intros o Ho. rewrite lookup_insert_ne; [apply Fr; exact Ho|].
      apply fresh_ne'. rewrite Fr by exact Ho. exact Ho.
  - simpl. simpl in V. rewrite <- V, firstn_nil. split; [reflexivity | split; [exact Fr | auto]].
Qed.

(** [limitFrames] and [limitPackets] return their argument itself,
    heap untouched, unless it has more than [limit > 0] elements; then a
    new object at a fresh location holding the first [limit]. *)
Theorem limit_fresh_or_same (hf : fheap) (fr : option positive) (hp : pheap)
    (pk : option positive) (limit : Z) :
  (limitFrames hf fr limit = (hf, fr) \/
   exists out, hf !! out = None /\ 0 < limit < Z.of_nat (length (frames_of hf fr)) /\
     limitFrames hf fr limit = (<[out := firstn (Z.to_nat limit) (frames_of hf fr)]> hf, Some out)) /\
  (limitPackets hp pk limit = (hp, pk) \/
   exists out, hp !! out = None /\ 0 < limit < Z.of_nat (length (packets_of hp pk)) /\
     limitPackets hp pk limit = (<[out := firstn (Z.to_nat limit) (packets_of hp pk)]> hp, Some out)).
Proof.
  split.
  - unfold limitFrames. destruct fr as [l|]; [|now left]. simpl.
    destruct (Z.leb_spec limit 0); simpl; [now left|].
    destruct (Z.leb_spec (Z.of_nat (length (default [] (hf !! l)))) limit); [now left|].
    right. exists (fresh (dom hf)). split; [apply fresh_none|]. split; [lia | reflexivity].
  - unfold limitPackets. destruct pk as [l|]; [|now left]. simpl.
    destruct (Z.leb_spec limit 0); simpl; [now left|].
    destruct (Z.leb_spec (Z.of_nat (length (default [] (hp !! l)))) limit); [now left|].
    right. exists (fresh (dom hp)). split; [apply fresh_none|]. split; [lia | reflexivity].
Qed.

Section Summaries.
Variable ToUpper : string -> string.

Definition is_video (f : Frame) : bool := String.eqb (MediaType f) "video".
Definition pict (u : string) (f : Frame) : bool :=
  (is_video f && String.eqb (ToUpper (PictType f)) u)%bool.

Lemma count_frames_fold fs : forall c,
  fold_left (count_frame ToUpper) fs c =
  mkFrameCounts (total c) (key c + length (List.filter is_key_video fs))
    (iCnt c + length (List.filter (pict "I") fs))
    (pCnt c + length (List.filter (pict "P") fs))
    (bCnt c + length (List.filter (pict "B") fs)).
Proof.
  induction fs as [|f r IH]; intros c; simpl.
  - destruct c; simpl. f_equal; lia.
  - rewrite IH. unfold count_frame, is_key_video, pict, is_video.
    destruct (String.eqb (MediaType f) "video"); simpl;
      [|destruct c; simpl; f_equal; lia].
    destruct (Z.eqb (KeyFrame f) 1);
    destruct (String.eqb (ToUpper (PictType f)) "I") eqn:EI;
    destruct (String.eqb (ToUpper (PictType f)) "P") eqn:EP;
    destruct (String.eqb (ToUpper (PictType f)) "B") eqn:EB; simpl;
    try (apply String.eqb_eq in EI; apply String.eqb_eq in EP; rewrite EI in EP; discriminate);
    try (apply String.eqb_eq in EI; apply String.eqb_eq in EB; rewrite EI in EB; discriminate);
    try (apply String.eqb_eq in EP; apply String.eqb_eq in EB; rewrite EP in EB; discriminate);
    f_equal; lia.
Qed.

Lemma filter_le {A} (p q : A -> bool) l :
  (forall x, p x = true -> q x = true) ->
  (length (List.filter p l) <= length (List.filter q l))%nat.
Proof.
  intros H. induction l as [|x r IH]; simpl; [lia|].
  destruct (p x) eqn:Px; [rewrite (H x Px); simpl; lia|].
  destruct (q x); simpl; lia.
Qed.

Lemma filter3_le (p1 p2 p3 q : Frame -> bool) l :
  (forall x, (Nat.b2n (p1 x) + Nat.b2n (p2 x) + Nat.b2n (p3 x) <= Nat.b2n (q x))%nat) ->
  (length (List.filter p1 l) + length (List.filter p2 l) + length (List.filter p3 l)
   <= length (List.filter q l))%nat.
Proof.
  intros H. induction l as [|x r IH]; simpl; [lia|].
  specialize (H x). destruct (p1 x), (p2 x), (p3 x), (q x); simpl in *; lia.
Qed.

(** [summarizeFrames] counts exactly: the total is the number of frames,
    [key] the number of video key frames, [I]/[P]/[B] the video frames of
    each picture type; these never exceed the number of video frames,
    which never exceeds the total. [nil] has no summary. *)
Theorem summarizeFrames_counts_spec (h : fheap) (fr : option positive) :
  (fr = None -> summarizeFrames_counts ToUpper h fr = None) /\
  (forall l, fr = Some l ->
   exists c, summarizeFrames_counts ToUpper h fr = Some c /\
     total c = length (frames_of h fr) /\
     key c = length (List.filter is_key_video (frames_of h fr)) /\
     iCnt c = length (List.filter (pict "I") (frames_of h fr)) /\
     pCnt c = length (List.filter (pict "P") (frames_of h fr)) /\
     bCnt c = length (List.filter (pict "B") (frames_of h fr)) /\
     (key c <= length (List.filter is_video (frames_of h fr)))%nat /\
     (iCnt c + pCnt c + bCnt c <= length (List.filter is_video (frames_of h fr)))%nat /\
     (length (List.filter is_video (frames_of h fr)) <= total c)%nat).
Proof.
  split; [intros ->; reflexivity|].
  intros l ->. unfold summarizeFrames_counts. simpl frames_of.
  set (fs := default [] (h !! l)).
  eexists; split; [reflexivity|]. rewrite count_frames_fold. simpl.
  split; [reflexivity|]. split; [reflexivity|]. split; [reflexivity|].
  split; [reflexivity|]. split; [reflexivity|].
  split; [apply filter_le; unfold is_key_video, is_video; intros x Hx;
          apply andb_prop in Hx as [Hx _]; exact Hx|].
  split.
  - apply filter3_le. intros x. unfold pict, is_video.
    destruct (String.eqb (MediaType x) "video"); simpl; [|lia].
    destruct (String.eqb_spec (ToUpper (PictType x)) "I") as [E|E];
    destruct (String.eqb_spec (ToUpper (PictType x)) "P") as [E'|E'];
    destruct (String.eqb_spec (ToUpper (PictType x)) "B") as [E''|E'']; simpl;
      try congruence; lia.
  - apply List.filter_length_le.
Qed.

End Summaries.

Definition is_vpkt (p : Packet) : bool := String.eqb (PCodecType p) "video".
Definition is_apkt (p : Packet) : bool := String.eqb (PCodecType p) "audio".

Lemma count_packets_fold ps : forall t v a,
  fold_left count_packet ps (t, v, a) =
  (t, v + length (List.filter is_vpkt ps), a + length (List.filter is_apkt ps))%nat.
Proof.
  induction ps as [|p r IH]; intros t v a; cbn [fold_left List.filter].
  - apply (f_equal2 pair); [apply (f_equal2 pair)|]; simpl; lia.
  - change (count_packet (t, v, a) p) with
      (if is_vpkt p then (t, S v, a) else if is_apkt p then (t, v, S a) else (t, v, a)).
    destruct (is_vpkt p) eqn:Ev, (is_apkt p) eqn:Ea.
    { exfalso. unfold is_vpkt, is_apkt in *. apply String.eqb_eq in Ev, Ea. congruence. }
    all: cbn [length]; rewrite IH;
      apply (f_equal2 pair); [apply (f_equal2 pair)|]; lia.
Qed.

(** [summarizePackets] reports the number of packets and, among them,
    the video and the audio ones; together these never exceed the total. *)
Theorem summarizePackets_counts_spec (h : pheap) (l : positive) :
  summarizePackets_counts h (Some l) =
    Some (length (packets_of h (Some l)), length (List.filter is_vpkt (packets_of h (Some l))),
          length (List.filter is_apkt (packets_of h (Some l)))) /\
  (length (List.filter is_vpkt (packets_of h (Some l)))
   + length (List.filter is_apkt (packets_of h (Some l)))
   <= length (packets_of h (Some l)))%nat /\
  summarizePackets_counts h None = None.
Proof.
  unfold summarizePackets_counts. simpl packets_of. rewrite count_packets_fold.
  split; [reflexivity|]. split; [|reflexivity].
  set (ps := default [] (h !! l)). clearbody ps.
  induction ps as [|p r IH]; simpl; [lia|].
  unfold is_vpkt at 1, is_apkt at 1.
  destruct (String.eqb_spec (PCodecType p) "video") as [E|E];
    destruct (String.eqb_spec (PCodecType p) "audio") as [E'|E']; simpl;
    try congruence; fold is_vpkt is_apkt; lia.
Qed.

End FramesFacts.

Module EventsFacts.
Import Events.

(** What holds between the steps of a job's fan-out. *)
Record inv (s : job_subs) : Prop := {
  inv_subs : forall m, subs s = Some m -> m ⊆ live s;
  inv_live_closed : live s ## closed s;
  inv_closing_closed : closing s ## closed s;
  inv_live_closing : live s ## closing s;
  inv_alloc : forall ch, ch ∈ live s ∪ closing s ∪ closed s -> is_Some (bufs s !! ch);
  inv_cap : forall ch b, bufs s !! ch = Some b -> (length b <= chan_cap)%nat;
  inv_fifo : forall ch b, bufs s !! ch = Some b ->
    exists r hl, recvd s !! ch = Some r /\ hist s !! ch = Some hl /\ (r ++ b) `sublist_of` hl
}.

Lemma inv_no_subs : inv no_subs.
Proof.
  constructor; simpl; try discriminate; try set_solver;
    intros ch b H; rewrite lookup_empty in H; discriminate.
Qed.

Lemma step_safe s a : inv s -> exists s', step s a = Some s' /\ inv s'.
Proof.
  intros [I1 I2 I3 I4 I5 I6 I7]. destruct a as [|ch|ch|ev|ch]; simpl.
  - (* subscribe *)
    set (ch := fresh (dom (bufs s))).
    assert (Hn : bufs s !! ch = None) by (apply not_elem_of_dom, is_fresh).
    assert (Hc : ch ∉ live s ∪ closing s ∪ closed s).
    { intros Hin. destruct (I5 ch Hin) as [b Hb]. congruence. }
    eexists; split; [reflexivity|]. constructor; simpl.
    + intros m Hm. injection Hm as <-. destruct (subs s) as [m0|] eqn:Es; simpl.
      * specialize (I1 m0 eq_refl). set_solver.
      * set_solver.
    + set_solver.
    + exact I3.
    + set_solver.
    + intros ch' Hin. destruct (decide (ch' = ch)) as [->|Ne].
      * rewrite lookup_insert_eq. eexists; reflexivity.
      * rewrite lookup_insert_ne by congruence. apply I5. set_solver.
    + intros ch' b Hb. destruct (decide (ch' = ch)) as [->|Ne].
      * rewrite lookup_insert_eq in Hb. injection Hb as <-. simpl. unfold chan_cap. lia.
      * rewrite lookup_insert_ne in Hb by congruence. exact (I6 ch' b Hb).
    + intros ch' b Hb. destruct (decide (ch' = ch)) as [->|Ne].
      * rewrite lookup_insert_eq in Hb. injection Hb as <-.
        exists [], []. rewrite !lookup_insert_eq. split; [reflexivity|]. split; [reflexivity|].
        apply sublist_nil_l.
      * rewrite lookup_insert_ne in Hb by congruence.
        destruct (I7 ch' b Hb) as (r & hl & Hr & Hh & Hs).
        exists r, hl. rewrite !lookup_insert_ne by congruence. auto.
  - (* unsubscribe: the delete *)
    destruct (decide (ch ∈ live s)) as [Hl|Hl]; [|eexists; split; [reflexivity|]; constructor; assumption].
    eexists; split; [reflexivity|]. constructor; simpl; try assumption.
    + intros m Hm. destruct (subs s) as [m0|]; simpl in Hm; [|discriminate].
      injection Hm as <-. specialize (I1 m0 eq_refl). set_solver.
    + set_solver.
    + set_solver.
    + set_solver.
    + intros ch' Hin. apply I5. set_solver.
  - (* unsubscribe: the close *)
    destruct (decide (ch ∈ closing s)) as [Hc|Hc]; [|eexists; split; [reflexivity|]; constructor; assumption].
    destruct (decide (ch ∈ closed s)) as [Hd|Hd]; [set_solver|].
    eexists; split; [reflexivity|]. constructor; simpl; try assumption.
    + set_solver.
    + set_solver.
    + set_solver.
    + intros ch' Hin. apply I5. set_solver.
  - (* broadcast *)
    destruct (subs s) as [m|] eqn:Es;
      [|eexists; split; [reflexivity|]; constructor; try assumption; intros m' Hm'; congruence].
    destruct (decide (m ∩ closed s = ∅)) as [Hd|Hd];
      [| exfalso; apply Hd; specialize (I1 m eq_refl); set_solver].
    eexists; split; [reflexivity|]. constructor; simpl; try assumption.
    + intros ch' Hin. rewrite map_lookup_imap. destruct (I5 ch' Hin) as [b Hb].
      rewrite Hb. simpl. eexists; reflexivity.
    + intros ch' b' Hb'. rewrite map_lookup_imap in Hb'.
      destruct (bufs s !! ch') as [b|] eqn:Hb; simpl in Hb'; [|discriminate].
      injection Hb' as <-. specialize (I6 ch' b Hb).
      destruct (decide (ch' ∈ m)); [|exact I6].
      unfold offer. destruct (Nat.ltb_spec (length b) chan_cap); [|exact I6].
      rewrite length_app. simpl. lia.
    + intros ch' b' Hb'. rewrite map_lookup_imap in Hb'.
      destruct (bufs s !! ch') as [b|] eqn:Hb; simpl in Hb'; [|discriminate].
      injection Hb' as <-. destruct (I7 ch' b Hb) as (r & hl & Hr & Hh & Hs).
      exists r, (if decide (ch' ∈ m) then hl ++ [ev] else hl).
      split; [exact Hr|]. split; [rewrite map_lookup_imap, Hh; reflexivity|].
      destruct (decide (ch' ∈ m)); [|exact Hs].
      unfold offer. destruct (Nat.ltb (length b) chan_cap).
      * rewrite app_assoc. apply sublist_app; [exact Hs | reflexivity].
      * apply sublist_inserts_r. exact Hs.
  - (* a receive *)
    destruct (decide (ch ∈ live s)) as [Hl|Hl]; [|eexists; split; [reflexivity|]; constructor; assumption].
    destruct (bufs s !! ch) as [[|e rest]|] eqn:Hb;
      [eexists; split; [reflexivity|]; constructor; assumption| |
       eexists; split; [reflexivity|]; constructor; assumption].
    destruct (I7 ch _ Hb) as (r & hl & Hr & Hh & Hs).
    eexists; split; [reflexivity|]. constructor; simpl; try assumption.
    + intros ch' Hin. destruct (decide (ch' = ch)) as [->|Ne].
      * rewrite lookup_insert_eq. eexists; reflexivity.
      * rewrite lookup_insert_ne by congruence. apply I5. exact Hin.
    + intros ch' b Hb'. destruct (decide (ch' = ch)) as [->|Ne].
      * rewrite lookup_insert_eq in Hb'. injection Hb' as <-.
        specialize (I6 ch _ Hb). simpl in I6. lia.
      * rewrite lookup_insert_ne in Hb' by congruence. exact (I6 ch' b Hb').
    + intros ch' b Hb'. destruct (decide (ch' = ch)) as [->|Ne].
      * rewrite lookup_insert_eq in Hb'. injection Hb' as <-.
        exists (r ++ [e]), hl. rewrite lookup_insert_eq, Hr. simpl.
        split; [reflexivity|]. split; [exact Hh|]. rewrite <- app_assoc. exact Hs.
      * rewrite lookup_insert_ne in Hb' by congruence.
        destruct (I7 ch' b Hb') as (r' & hl' & Hr' & Hh' & Hs').
        exists r', hl'. rewrite lookup_insert_ne by congruence. auto.
Qed.

Lemma run_actions_safe acts : forall s, inv s ->
  exists s', run_actions s acts = Some s' /\ inv s'.
Proof.
  induction acts as [|a rest IH]; intros s Hs; simpl; [eexists; split; [reflexivity | exact Hs]|].
  destruct (step_safe s a Hs) as (s1 & E & H1). rewrite E. now apply IH.
Qed.

(** A job's fan-out never panics, whatever the interleaving of
    [subscribe], [unsubscribe] (its delete and its close), [broadcast] and
    the handlers' receives: no subscriber of [j.subs] is closed, so
    [broadcast] never sends on a closed channel, and a pending [close]
    never closes a channel twice. *)
Theorem events_never_panic (acts : list action) :
  exists s, run_actions no_subs acts = Some s /\
    (forall m, subs s = Some m -> m ∩ closed s = ∅) /\
    closing s ∩ closed s = ∅.
Proof.
  destruct (run_actions_safe acts no_subs inv_no_subs) as (s & E & I).
  exists s. split; [exact E|]. split.
  - intros m Hm. pose proof (inv_subs s I m Hm). pose proof (inv_live_closed s I). set_solver.
  - pose proof (inv_closing_closed s I). set_solver.
Qed.

(** A subscriber's buffer never holds more than 16 events, and what a
    handler has received followed by what is still buffered is a
    subsequence of what was broadcast while it was subscribed: events are
    dropped when the buffer is full, never duplicated or reordered. *)
Theorem events_buffers (acts : list action) :
  exists s, run_actions no_subs acts = Some s /\
    (forall ch b, bufs s !! ch = Some b -> (length b <= chan_cap)%nat) /\
    (forall ch b, bufs s !! ch = Some b ->
       exists r hl, recvd s !! ch = Some r /\ hist s !! ch = Some hl /\ (r ++ b) `sublist_of` hl).
Proof.
  destruct (run_actions_safe acts no_subs inv_no_subs) as (s & E & I).
  exists s. split; [exact E|]. split; [exact (inv_cap s I) | exact (inv_fifo s I)].
Qed.

End EventsFacts.
